(** * Diatonic-AI-Workbench: the source-rewriting scripts

    A shallow embedding of the four repair scripts under [scripts/]:

    - [final-build-fixes.py]       (const reassignments, the [} else {] repair)
    - [final-typescript-fixes.py]  ([fix_file], the per-file pattern lists,
                                    the empty-interface pass, the switch-case pass)
    - [fix-regex.py]               (literal replacements in two router files)
    - [fix_final_const_errors.py]  (five search/replace fixes with a fallback)

    Texts are Python [str] values, modelled as lists of characters.  A
    character is a code point below 256 ([ascii]); the predicates on
    characters ([isspace], [isword]) follow Python's Unicode tables on that
    range.  The file system is a finite map from paths to texts; a script is
    a computation over a [world] holding the files, the writes the
    environment will make fail, the log of the writes and the console. *)

From Stdlib Require Import List Ascii String Arith Bool Lia.
From stdpp Require Import gmap strings.
Import ListNotations.
Open Scope list_scope.

Abbreviation str := (list ascii).

(** A Python string literal. *)
Definition lit (s : string) : str := list_ascii_of_string s.

Definition LF : ascii := ascii_of_nat 10.
Definition DQUOTE : ascii := ascii_of_nat 34.

(** ** Python's [str] operations *)

(** [c.isspace()], code points below 256: TAB..CR, FS..US, space, NEL, NBSP. *)
Definition isspace (c : ascii) : bool :=
  let n := nat_of_ascii c in
  ((9 <=? n) && (n <=? 13)) || ((28 <=? n) && (n <=? 32))
  || (n =? 133) || (n =? 160).

Fixpoint lstrip (s : str) : str :=
  match s with
  | [] => []
  | c :: s' => if isspace c then lstrip s' else s
  end.

Definition rstrip (s : str) : str := rev (lstrip (rev s)).

(** [s.strip()] *)
Definition strip (s : str) : str := lstrip (rstrip s).

(** [s.startswith(p)] *)
Fixpoint startswith (p s : str) : bool :=
  match p, s with
  | [], _ => true
  | _ :: _, [] => false
  | a :: p', b :: s' => Ascii.eqb a b && startswith p' s'
  end.

(** [s.endswith(p)] *)
Definition endswith (p s : str) : bool := startswith (rev p) (rev s).

(** [s.startswith((p1, ..., pn))] and [s.endswith((p1, ..., pn))] *)
Definition startswith_any (ps : list str) (s : str) : bool :=
  existsb (fun p => startswith p s) ps.

Definition endswith_any (ps : list str) (s : str) : bool :=
  existsb (fun p => endswith p s) ps.

(** [p in s] *)
Fixpoint contains (p s : str) : bool :=
  startswith p s ||
  match s with
  | [] => false
  | _ :: s' => contains p s'
  end.

(** [s.find(p)]; [None] stands for Python's [-1]. *)
Fixpoint str_find (p s : str) : option nat :=
  if startswith p s then Some 0
  else match s with
       | [] => None
       | _ :: s' => option_map S (str_find p s')
       end.

(** [s.replace(old, new)]: every non-overlapping occurrence, left to right.
    [skip] counts the characters of the occurrence just replaced that are
    still to be passed over. *)
Fixpoint replace_from (old new : str) (skip : nat) (s : str) : str :=
  match s with
  | [] => []
  | c :: s' =>
      match skip with
      | S k => replace_from old new k s'
      | 0 => if startswith old s
             then new ++ replace_from old new (length old - 1) s'
             else c :: replace_from old new 0 s'
      end
  end.

Definition str_replace (old new s : str) : str :=
  match old with
  | [] => new ++ flat_map (fun c => c :: new) s
  | _ :: _ => replace_from old new 0 s
  end.

(** [s.split(sep)] for a one-character separator: never the empty list. *)
Fixpoint str_split (sep : ascii) (s : str) : list str :=
  match s with
  | [] => [[]]
  | c :: s' =>
      if Ascii.eqb c sep then [] :: str_split sep s'
      else match str_split sep s' with
           | l :: ls => (c :: l) :: ls
           | [] => [[c]]
           end
  end.

(** [sep.join(ls)] *)
Fixpoint str_join (sep : str) (ls : list str) : str :=
  match ls with
  | [] => []
  | [l] => l
  | l :: ls' => l ++ sep ++ str_join sep ls'
  end.

Definition lines_of (content : str) : list str := str_split LF content.
Definition unlines (ls : list str) : str := str_join [LF] ls.

(** ** Python's [re]: the fragment the scripts' patterns use

    A backtracking matcher in continuation-passing style: alternatives are
    tried left to right, [*] and [+] are greedy, a lookahead is atomic.  The
    matcher carries the character before the current position (for [\b]) and
    the groups captured so far.  None of the patterns uses [^] or [$], so
    [re.MULTILINE] changes nothing. *)

Inductive regex : Type :=
| Eps
| Chr (c : ascii)                (* a literal character *)
| Cls (p : ascii -> bool)        (* [\s], [\w], [[...]], [[^...]] *)
| Cat (r1 r2 : regex)
| Alt (r1 r2 : regex)            (* [r1|r2] *)
| Star (r : regex)               (* [r*] *)
| Grp (n : nat) (r : regex)      (* capturing group number [n] *)
| Ahead (r : regex)              (* [(?=r)] *)
| WordB.                         (* [\b] *)

(** [\w] on code points below 256: [[A-Za-z0-9_]] and the Latin-1 letters
    and numerals. *)
Definition isword (c : ascii) : bool :=
  let n := nat_of_ascii c in
  ((48 <=? n) && (n <=? 57)) || ((65 <=? n) && (n <=? 90)) || (n =? 95)
  || ((97 <=? n) && (n <=? 122))
  || (n =? 170) || (n =? 178) || (n =? 179) || (n =? 181) || (n =? 185)
  || (n =? 186) || ((188 <=? n) && (n <=? 190))
  || ((192 <=? n) && (n <=? 214)) || ((216 <=? n) && (n <=? 246))
  || (248 <=? n).

Definition isword_at (c : option ascii) : bool :=
  match c with
  | Some a => isword a
  | None => false
  end.

Definition caps := list (nat * str).

Fixpoint group (n : nat) (c : caps) : str :=
  match c with
  | [] => []
  | (m, s) :: c' => if n =? m then s else group n c'
  end.

(** The state after a match: the last character consumed before the
    position, the text still ahead, the captured groups. *)
Definition mstate : Type := option ascii * str * caps.

(** What is done with a match: the continuation. *)
Definition cont : Type := option ascii -> str -> caps -> option mstate.

(** The loop of [r*]: one more iteration of [body] as long as it consumes
    something, else the continuation.  One unit of fuel per iteration; the
    length of the text is enough, since every iteration consumes. *)
Fixpoint star_loop (body : option ascii -> str -> caps -> cont -> option mstate)
    (k : cont) (fuel : nat) (prev : option ascii) (s : str) (c : caps)
    : option mstate :=
  match fuel with
  | 0 => k prev s c
  | S fuel' =>
      match body prev s c
              (fun prev' s' c' =>
                 if length s' <? length s then star_loop body k fuel' prev' s' c'
                 else None)
      with
      | Some m => Some m
      | None => k prev s c
      end
  end.

Fixpoint rmatch (r : regex) (prev : option ascii) (s : str) (c : caps) (k : cont)
    {struct r} : option mstate :=
  match r with
  | Eps => k prev s c
  | Chr a =>
      match s with
      | b :: s' => if Ascii.eqb a b then k (Some b) s' c else None
      | [] => None
      end
  | Cls p =>
      match s with
      | b :: s' => if p b then k (Some b) s' c else None
      | [] => None
      end
  | Cat r1 r2 => rmatch r1 prev s c (fun prev' s' c' => rmatch r2 prev' s' c' k)
  | Alt r1 r2 =>
      match rmatch r1 prev s c k with
      | Some m => Some m
      | None => rmatch r2 prev s c k
      end
  | Star r' => star_loop (rmatch r') k (length s) prev s c
  | Grp n r' =>
      rmatch r' prev s c
        (fun prev' s' c' => k prev' s' ((n, firstn (length s - length s') s) :: c'))
  | Ahead r' =>
      match rmatch r' prev s c (fun prev' s' c' => Some (prev', s', c')) with
      | Some (_, _, c') => k prev s c'
      | None => None
      end
  | WordB =>
      if xorb (isword_at prev) (isword_at (hd_error s)) then k prev s c else None
  end.

(** A replacement template: literal text and group references [\1], [\2]. *)
Inductive titem : Type :=
| TLit (s : str)
| TRef (n : nat).

Definition expand (t : list titem) (c : caps) : str :=
  flat_map (fun it => match it with
                      | TLit s => s
                      | TRef n => group n c
                      end) t.

(** One attempt at the current position.  [must_advance] is set after an
    empty match: the next match at the same position must be non-empty. *)
Definition match_here (r : regex) (prev : option ascii) (s : str)
    (must_advance : bool) : option mstate :=
  rmatch r prev s []
    (fun prev' s' c' =>
       if must_advance && (length s' =? length s) then None
       else Some (prev', s', c')).

(** [re.sub(pattern, repl, s)] from the current position on: search for the
    leftmost match, copy the text before it, emit the expanded template,
    resume after the match. *)
Fixpoint sub_from (fuel : nat) (r : regex) (repl : list titem)
    (prev : option ascii) (s : str) (must_advance : bool) : str :=
  match fuel with
  | 0 => s
  | S fuel' =>
      match match_here r prev s must_advance with
      | Some (prev', s', c') =>
          expand repl c' ++
          (if length s' <? length s
           then sub_from fuel' r repl prev' s' false
           else sub_from fuel' r repl prev s true)
      | None =>
          match s with
          | [] => []
          | a :: s'' => a :: sub_from fuel' r repl (Some a) s'' false
          end
      end
  end.

Definition re_sub (pattern : regex) (repl : list titem) (s : str) : str :=
  sub_from (2 * length s + 2) pattern repl None s false.

(** *** Writing patterns *)

Definition chars (cs : str) : regex := fold_right (fun c r => Cat (Chr c) r) Eps cs.
Definition text (s : string) : regex := chars (lit s).
Definition plus (r : regex) : regex := Cat r (Star r).
Definition cat (rs : list regex) : regex := fold_right Cat Eps rs.
Definition oneof (cs : str) : regex :=
  Cls (fun c => existsb (Ascii.eqb c) cs).
Definition noneof (cs : str) : regex :=
  Cls (fun c => negb (existsb (Ascii.eqb c) cs)).
Definition ws : regex := Cls isspace.          (* [\s] *)
Definition wordchar : regex := Cls isword.     (* [\w] *)

Definition plain (s : string) : list titem := [TLit (lit s)].

Definition rule : Type := regex * list titem.

(** ** The world the scripts run in *)

(** What a script prints: one constructor per kind of line. *)
Inductive msg : Type :=
| Start                      (* the opening banner *)
| Fixed (path : str)         (* "Fixed: p", "Fixed const reassignments in: p", ... *)
| Fixing (path : str)        (* "Fixing p..." *)
| Applied (path : str)       (* "Applied fix to p" *)
| NoMatch (path : str)       (* "No match found for p - checking manually..." *)
| Added (path : str)         (* "Added expressionAttributeValues declaration to p" *)
| NotFound (path : str)      (* "File not found: p" *)
| FilesFixed (n : nat)       (* "Files fixed: n" *)
| Completed                  (* "... completed!" *)
| NextStep.                  (* "Run 'npm run ...' to ..." *)

(** A write that the environment makes fail.  [open(p, 'w')] may raise,
    and then the file is not touched; once it has succeeded the file is
    empty, and [f.write] or the closing flush may raise after only the first
    [written] characters of the text have reached the file. *)
Inductive fault : Type :=
| AtOpen
| AtWrite (written : nat).

Record world : Type := World {
  files : gmap str str;          (* path |-> content *)
  faults : gmap str fault;       (* the paths a write to which fails, and where *)
  writes : list (str * str);     (* what each [open(p, 'w')] left in [p], oldest first *)
  console : list msg             (* printed lines, oldest first *)
}.

Inductive exn : Type :=
| FileNotFoundError (path : str)
| OSError (path : str).

Inductive outcome (A : Type) : Type :=
| Ret (a : A) (w : world)
| Raise (e : exn) (w : world).
Arguments Ret {A} a w.
Arguments Raise {A} e w.

Definition M (A : Type) : Type := world -> outcome A.

Definition ret {A} (a : A) : M A := fun w => Ret a w.

Definition bind {A B} (m : M A) (f : A -> M B) : M B :=
  fun w => match m w with
           | Ret a w' => f a w'
           | Raise e w' => Raise e w'
           end.

Notation "'let*' x ':=' m 'in' k" := (bind m (fun x => k))
  (at level 10, x name, m at level 100, k at level 200).
Notation "m '>>' k" := (bind m (fun _ => k))
  (at level 100, k at level 200, right associativity).

(** [for x in xs: body(x)] *)
Fixpoint for_each {A} (xs : list A) (body : A -> M unit) : M unit :=
  match xs with
  | [] => ret tt
  | x :: xs' => body x >> for_each xs' body
  end.

(** [os.path.exists(p)] *)
Definition path_exists (p : str) : M bool :=
  fun w => Ret (bool_decide (is_Some (files w !! p))) w.

(** [with open(p, 'r') as f: f.read()] *)
Definition read_file (p : str) : M str :=
  fun w => match files w !! p with
           | Some content => Ret content w
           | None => Raise (FileNotFoundError p) w
           end.

(** What [open(p, 'w')] followed by [f.write] leaves in [p]. *)
Definition store (p content : str) (w : world) : world :=
  {| files := <[p := content]> (files w);
     faults := faults w;
     writes := writes w ++ [(p, content)];
     console := console w |}.

(** [with open(p, 'w') as f: f.write(content)] *)
Definition write_file (p content : str) : M unit :=
  fun w => match faults w !! p with
           | None => Ret tt (store p content w)
           | Some AtOpen => Raise (OSError p) w
           | Some (AtWrite written) => Raise (OSError p) (store p (take written content) w)
           end.

(** The world after the lines [ms] have been printed. *)
Definition say (ms : list msg) (w : world) : world :=
  {| files := files w;
     faults := faults w;
     writes := writes w;
     console := console w ++ ms |}.

Definition print (m : msg) : M unit := fun w => Ret tt (say [m] w).

Definition when (b : bool) (m : M unit) : M unit := if b then m else ret tt.

(** [a != b] on texts *)
Definition differs (a b : str) : bool := bool_decide (a ≠ b).

(** ** scripts/final-typescript-fixes.py *)

Module TypescriptFixes.

(** The loop of [fix_file]: [for pattern, replacement in patterns:
    content = re.sub(pattern, replacement, content)]. *)
Fixpoint apply_patterns (patterns : list rule) (content : str) : str :=
  match patterns with
  | [] => content
  | (pattern, replacement) :: patterns' =>
      apply_patterns patterns' (re_sub pattern replacement content)
  end.

Definition fix_file (file_path : str) (patterns : list rule) : M bool :=
  let* present := path_exists file_path in
  if negb present then ret false
  else
    let* content := read_file file_path in
    let original_content := content in
    let content := apply_patterns patterns content in
    if differs content original_content then
      write_file file_path content >>
      print (Fixed file_path) >>
      ret true
    else ret false.

(** [x:\s*any] for a literal [x] *)
Definition typed_any (x : string) : regex :=
  cat [text x; text ":"; Star ws; text "any"].

Definition common_patterns : list rule :=
  [ (cat [WordB; text "any"; WordB; Ahead (cat [Star ws; oneof (lit ",;)]}")])],
     plain "unknown");
    (cat [text ":"; Star ws; text "any"; Star ws; text "="], plain ": unknown =");
    (text "<any>", plain "<unknown>");
    (text "Array<any>", plain "Array<unknown>");
    (text "any[]", plain "unknown[]") ].

(** The entries of [fixes]: a file and its patterns. *)
Definition fixes : list (str * list rule) :=
  [ (lit "lambda/api/handlers/agents.ts",
     [ (typed_any "body", plain "body: RequestBody");
       (typed_any "params", plain "params: Record<string, string>");
       (typed_any "query", plain "query: Record<string, unknown>");
       (typed_any "event", plain "event: APIGatewayEvent") ] ++ common_patterns);
    (lit "lambda/api/handlers/analytics.ts",
     [ (typed_any "event", plain "event: APIGatewayEvent");
       (typed_any "metrics", plain "metrics: Record<string, unknown>") ]
     ++ common_patterns);
    (lit "lambda/api/handlers/billing.ts",
     [ (typed_any "stripeEvent",
        plain "stripeEvent: { type: string; data: Record<string, unknown> }") ]
     ++ common_patterns);
    (lit "lambda/api/handlers/webhooks.ts",
     [ (typed_any "payload", plain "payload: Record<string, unknown>");
       (typed_any "webhook", plain "webhook: WebhookEvent") ] ++ common_patterns);
    (lit "lambda/api/middleware/auth.ts",
     [ (typed_any "event", plain "event: APIGatewayEvent");
       (typed_any "context", plain "context: APIGatewayContext") ]
     ++ common_patterns);
    (lit "lambda/api/utils/api.ts",
     [ (typed_any "data", plain "data: unknown");
       (typed_any "error", plain "error: Error | unknown") ] ++ common_patterns);
    (lit "lambda/api/utils/database.ts",
     [ (typed_any "item", plain "item: Record<string, unknown>");
       (typed_any "result", plain "result: QueryResult") ] ++ common_patterns);
    (lit "src/components/auth/AuthComponents.tsx",
     [ (typed_any "props", plain "props: Record<string, unknown>");
       (text "React.FC<any>", plain "React.FC<Record<string, unknown>>") ]
     ++ common_patterns);
    (lit "src/hooks/useApiServices.ts",
     [ (typed_any "response", plain "response: unknown");
       (typed_any "error", plain "error: Error | unknown") ] ++ common_patterns);
    (lit "lambda/tests/e2e/experiment-workflow.test.ts",
     [ (cat [text "let"; plus ws;
             Grp 1 (Alt (text "experimentId") (text "datasetId")); Star ws; text "="],
        [TLit (lit "const "); TRef 1; TLit (lit " =")]) ] ++ common_patterns) ].

Definition agent_types_path : str := lit "src/components/agent-builder/types.ts".
Definition observatory_path : str := lit "lambda/observatory-api/handler.ts".

(** [interface\s+(\w+)\s+extends\s+([^{]+)\s*{\s*}] becomes [type \1 = \2] *)
Definition empty_extends : rule :=
  (cat [text "interface"; plus ws; Grp 1 (plus wordchar); plus ws; text "extends";
        plus ws; Grp 2 (plus (noneof (lit "{"))); Star ws; text "{"; Star ws; text "}"],
   [TLit (lit "type "); TRef 1; TLit (lit " = "); TRef 2]).

(** [interface\s+(\w+)\s*{\s*}] becomes an interface with an index signature *)
Definition empty_interface : rule :=
  (cat [text "interface"; plus ws; Grp 1 (plus wordchar); Star ws; text "{"; Star ws;
        text "}"],
   [TLit (lit "interface "); TRef 1;
    TLit (lit " {" ++ [LF] ++ lit "  [key: string]: unknown;" ++ [LF] ++ lit "}")]).

Definition fix_agent_types (content : str) : str :=
  let content := re_sub (fst empty_extends) (snd empty_extends) content in
  re_sub (fst empty_interface) (snd empty_interface) content.

Definition is_declaration (next_line : str) : bool :=
  startswith_any [lit "const "; lit "let "; lit "var "] next_line.

(** The loop [for i, line in enumerate(lines)] of the switch-case pass:
    [in_switch] is the flag, the list is [lines[i:]], so that [lines[i + 1]]
    is the head of the tail; the result is what the iterations from [i] on
    append to [fixed_lines]. *)
Fixpoint wrap_cases (in_switch : bool) (lines : list str) : list str :=
  match lines with
  | [] => []
  | line :: rest =>
      if contains (lit "switch") line && contains (lit "{") line then
        line :: wrap_cases true rest
      else if in_switch && contains (lit "}") line && negb (contains (lit "case") line)
      then line :: wrap_cases false rest
      else if in_switch && startswith (lit "case") (strip line)
                && contains (lit ":") line then
        match rest with
        | following :: _ =>
            let next_line := strip following in
            if is_declaration next_line then
              line :: str_replace next_line (lit "        {") following
                   :: (lit "        " ++ next_line)
                   :: wrap_cases in_switch rest
            else line :: wrap_cases in_switch rest
        | [] => line :: wrap_cases in_switch rest
        end
      else line :: wrap_cases in_switch rest
  end.

Definition fix_case_declarations (content : str) : str :=
  unlines (wrap_cases false (lines_of content)).

Definition count_fixed (fixed_count : nat) (fx : str * list rule) : M nat :=
  let* fixed := fix_file (fst fx) (snd fx) in
  ret (if fixed then fixed_count + 1 else fixed_count).

Fixpoint apply_fixes (fs : list (str * list rule)) (fixed_count : nat) : M nat :=
  match fs with
  | [] => ret fixed_count
  | fx :: fs' =>
      let* fixed_count := count_fixed fixed_count fx in
      apply_fixes fs' fixed_count
  end.

(** A pass of [main] that rewrites one file without comparing: read,
    transform, write, report, count. *)
Definition rewrite_always (path : str) (f : str -> str) (fixed_count : nat) : M nat :=
  let* present := path_exists path in
  if present then
    let* content := read_file path in
    write_file path (f content) >>
    print (Fixed path) >>
    ret (fixed_count + 1)
  else ret fixed_count.

Definition main : M unit :=
  print Start >>
  let* fixed_count := apply_fixes fixes 0 in
  let* fixed_count := rewrite_always agent_types_path fix_agent_types fixed_count in
  let* fixed_count :=
    rewrite_always observatory_path fix_case_declarations fixed_count in
  print Completed >>
  print (FilesFixed fixed_count) >>
  print NextStep.

End TypescriptFixes.

(** ** scripts/final-build-fixes.py *)

Module BuildFixes.

Definition files_to_fix_const : list str :=
  [lit "src/lib/api/agent-templates.ts"; lit "src/lib/api/lab.ts"].

(** [const\s+filterExpression\s*=\s*Q[^Q]*Q;] where the class [Q] holds the
    single and the double quote. *)
Definition filter_expression : rule :=
  (cat [text "const"; plus ws; text "filterExpression"; Star ws; text "="; Star ws;
        oneof (lit "'" ++ [DQUOTE]); Star (noneof (lit "'" ++ [DQUOTE]));
        oneof (lit "'" ++ [DQUOTE]); text ";"],
   plain "let filterExpression = '';").

(** [const\s+x\s*=\s*0;] becomes [let x = 0;] *)
Definition zero_const (x : string) : rule :=
  (cat [text "const"; plus ws; text x; Star ws; text "="; Star ws; text "0;"],
   [TLit (lit "let " ++ lit x ++ lit " = 0;")]).

Definition total_duration : rule := zero_const "totalDuration".
Definition completed_runs : rule := zero_const "completedRuns".

Definition fix_const_content (content : str) : str :=
  let content := re_sub (fst filter_expression) (snd filter_expression) content in
  let content := re_sub (fst total_duration) (snd total_duration) content in
  re_sub (fst completed_runs) (snd completed_runs) content.

Definition fix_const_file (file_path : str) : M unit :=
  let* present := path_exists file_path in
  when present
    (let* content := read_file file_path in
     let original_content := content in
     let content := fix_const_content content in
     when (differs content original_content)
       (write_file file_path content >> print (Fixed file_path))).

Definition flow_nodes_path : str := lit "src/lib/api/flow-nodes.ts".

Definition template_branch : str :=
  lit "        const nodes = await this.getTemplateNodes(templateId);".
Definition else_line : str := lit "      } else {".
Definition tenant_branch : str :=
  lit "        const nodes = await this.getTenantFlowNodes(undefined, 1000);".
Definition closing_line : str := lit "      }".

Definition fixed_section (if_condition : str) : list str :=
  [if_condition; template_branch; else_line; tenant_branch; closing_line].

(** [while j >= 0 and 'if (' not in lines[j]: j -= 1], entered at [j]: the
    line the scan stops at, [None] when it runs past the first line. *)
Fixpoint find_if (lines : list str) (j : nat) : option str :=
  match lines !! j with
  | None => None
  | Some l =>
      if contains (lit "if (") l then Some l
      else match j with
           | 0 => None
           | S j' => find_if lines j'
           end
  end.

(** [prev_line and not prev_line.endswith((';', '}', '{'))] *)
Definition unterminated (prev_line : str) : bool :=
  negb (bool_decide (prev_line = []))
  && negb (endswith_any [lit ";"; lit "}"; lit "{"] prev_line).

Definition mentions_nodes (prev_line : str) : bool :=
  contains (lit "const nodes") prev_line || contains (lit "nodes =") prev_line.

(** The nested conditions of the loop body at index [i]: the [if (] line
    when every one of them holds, [None] when the body falls through to
    [fixed_lines.append(line)]. *)
Definition malformed_else (lines : list str) (i : nat) (line : str) : option str :=
  if contains (lit "} else {") line && (0 <? i) then
    match lines !! (i - 1) with
    | None => None
    | Some before =>
        let prev_line := strip before in
        if unterminated prev_line then
          if mentions_nodes prev_line then find_if lines (i - 1) else None
        else None
    end
  else None.

(** [while i < len(lines)]: one unit of fuel per iteration. *)
Fixpoint repair_loop (fuel : nat) (lines : list str) (i : nat)
    (fixed_lines : list str) : list str :=
  match fuel with
  | 0 => fixed_lines
  | S fuel' =>
      match lines !! i with
      | None => fixed_lines
      | Some line =>
          match malformed_else lines i line with
          | Some if_line =>
              repair_loop fuel' lines (i + 2)
                (fixed_lines ++ fixed_section (strip if_line))
          | None => repair_loop fuel' lines (i + 1) (fixed_lines ++ [line])
          end
      end
  end.

Definition repair_else (lines : list str) : list str :=
  repair_loop (length lines) lines 0 [].

Definition fix_flow_nodes (content : str) : str :=
  unlines (repair_else (lines_of content)).

Definition main : M unit :=
  print Start >>
  for_each files_to_fix_const fix_const_file >>
  (let* present := path_exists flow_nodes_path in
   when present
     (let* content := read_file flow_nodes_path in
      let fixed_content := fix_flow_nodes content in
      when (differs fixed_content content)
        (write_file flow_nodes_path fixed_content >> print (Fixed flow_nodes_path)))) >>
  print Completed >>
  print NextStep.

End BuildFixes.

(** ** scripts/fix-regex.py *)

Module FixRegex.

Definition router_path : str := lit "lambda/api/router.ts".
Definition tenant_path : str := lit "lambda/api/middleware/tenant.ts".

Definition fix_router (content : str) : str :=
  let content := str_replace (lit "[^\/]+") (lit "[^/]+") content in
  str_replace (lit "[^\/]") (lit "[^/]") content.

Definition fix_tenant (tenant_content : str) : str :=
  str_replace (lit "\/") (lit "/") tenant_content.

(** The module body: [router.ts] is opened without a test of its existence. *)
Definition main : M unit :=
  print Start >>
  let* content := read_file router_path in
  write_file router_path (fix_router content) >>
  print (Fixed router_path) >>
  (let* present := path_exists tenant_path in
   when present
     (let* tenant_content := read_file tenant_path in
      write_file tenant_path (fix_tenant tenant_content) >>
      print (Fixed tenant_path))) >>
  print Completed.

End FixRegex.

(** ** scripts/fix_final_const_errors.py *)

Module ConstErrors.

Record fix_entry : Type := Fix {
  file : str;
  search : regex;
  replace : list titem
}.

(** [    // Default to scan with filters\s*\n\s*const filterExpression = \{\};] *)
Definition filter_search : regex :=
  cat [text "    // Default to scan with filters"; Star ws; Chr LF; Star ws;
       text "const filterExpression = {};"].

Definition filter_replace : list titem :=
  [TLit (lit "    // Default to scan with filters" ++ [LF]
         ++ lit "    let filterExpression: string | object = {};")].

Definition values_text : string :=
  "const expressionAttributeValues: Record<string, any> = {};".

Definition fixes : list fix_entry :=
  [ Fix (lit "src/lib/api/lab.ts") filter_search filter_replace;
    Fix (lit "src/lib/api/flow-nodes.ts") filter_search filter_replace;
    Fix (lit "src/lib/api/dynamodb-client.ts")
        (text "const dynamodbClient = null;")
        (plain "let dynamodbClient: DynamoDBDocumentClient | null = null;");
    Fix (lit "src/lib/api/lab.ts") (text values_text) (plain values_text);
    Fix (lit "src/lib/api/flow-nodes.ts") (text values_text) (plain values_text) ].

Definition marker : str := lit "// Default to scan with filters".

Definition declaration : str :=
  [LF] ++ lit "    const expressionAttributeValues: Record<string, any> = {};" ++ [LF].

(** The guard of the fallback: the values are used and not yet declared. *)
Definition needs_declaration (content : str) : bool :=
  contains (lit "expressionAttributeValues[") content
  && negb (contains (lit "const expressionAttributeValues:") content).

(** The fallback under [if 'lab.ts' in file_path] and under
    [if 'flow-nodes.ts' in file_path]: the two blocks are the same. *)
Definition add_declaration (file_path content : str) : M unit :=
  when (needs_declaration content)
    match str_find marker content with
    | None => ret tt
    | Some search_pos =>
        let lines := lines_of (firstn search_pos content) in
        let insert_pos := length (unlines lines) in
        let new_content :=
          firstn insert_pos content ++ declaration ++ skipn insert_pos content in
        write_file file_path new_content >> print (Added file_path)
    end.

Definition apply_fix (fx : fix_entry) : M unit :=
  let file_path := file fx in
  let* present := path_exists file_path in
  if present then
    print (Fixing file_path) >>
    let* content := read_file file_path in
    let new_content := re_sub (search fx) (replace fx) content in
    if differs new_content content then
      write_file file_path new_content >> print (Applied file_path)
    else
      print (NoMatch file_path) >>
      when (contains (lit "lab.ts") file_path) (add_declaration file_path content) >>
      when (contains (lit "flow-nodes.ts") file_path)
        (add_declaration file_path content)
  else print (NotFound file_path).

Definition fix_const_errors : M unit := for_each fixes apply_fix.

Definition main : M unit :=
  print Start >> fix_const_errors >> print Completed.

End ConstErrors.

(** ** Notions used in the statements

    Nothing below is code of the scripts: predicates on texts, the
    declarative global replacement, the loops of the two line-oriented
    passes seen one line at a time, and the inputs of the examples. *)

Definition spaces (w : str) : Prop := Forall (fun c => isspace c = true) w.

Definition first_nonspace (p : str) : bool :=
  match p with
  | a :: _ => negb (isspace a)
  | [] => false
  end.

Fixpoint last_nonspace (p : str) : bool :=
  match p with
  | [] => false
  | [a] => negb (isspace a)
  | _ :: p' => last_nonspace p'
  end.

Definition no_lf (s : str) : Prop := ~ In LF s.

Definition suffix_of (s' s : str) : Prop := exists u, s = u ++ s'.

(** The character before the position reached by reading [u]. *)
Fixpoint lastc (u : str) (prev : option ascii) : option ascii :=
  match u with
  | [] => prev
  | a :: u' => lastc u' (Some a)
  end.

(** Whether the next attempt must still advance once [u] has been copied. *)
Definition adv_after (u : str) (adv : bool) : bool :=
  match u with
  | [] => adv
  | _ :: _ => false
  end.

Section GlobalReplace.
Variable r : regex.
Variable repl : list titem.

(** No attempt succeeds at a position inside [u], where [u ++ rest] is
    the text ahead and [prev] the character before it. *)
Fixpoint unmatched (prev : option ascii) (adv : bool) (u rest : str) : Prop :=
  match u with
  | [] => True
  | a :: u' =>
      match_here r prev (u ++ rest) adv = None /\ unmatched (Some a) false u' rest
  end.

(** Global search-and-replace, written from the specification: the text
    is copied up to the leftmost match, the match is replaced by the
    expanded template, and the same is done with the text after the
    match; matches do not overlap.  After an empty match the search
    resumes at the same position for a non-empty one. *)
Inductive global_replace : option ascii -> bool -> str -> str -> Prop :=
| gr_rest prev adv s :
    unmatched prev adv s [] ->
    match_here r (lastc s prev) [] (adv_after s adv) = None ->
    global_replace prev adv s s
| gr_hit prev adv u m t prev' c out :
    unmatched prev adv u (m ++ t) ->
    match_here r (lastc u prev) (m ++ t) (adv_after u adv) = Some (prev', t, c) ->
    m <> [] ->
    global_replace prev' false t out ->
    global_replace prev adv (u ++ m ++ t) (u ++ expand repl c ++ out)
| gr_empty prev adv u t prev' c out :
    unmatched prev adv u t ->
    match_here r (lastc u prev) t (adv_after u adv) = Some (prev', t, c) ->
    global_replace (lastc u prev) true t out ->
    global_replace prev adv (u ++ t) (u ++ expand repl c ++ out).
End GlobalReplace.

Module CasePass.
Import TypescriptFixes.

(** The three tests of the switch-case loop, and what one iteration does
    to the flag and to [fixed_lines]. *)
Definition opens_switch (line : str) : bool :=
  contains (lit "switch") line && contains (lit "{") line.

Definition closes_switch (in_switch : bool) (line : str) : bool :=
  in_switch && contains (lit "}") line && negb (contains (lit "case") line).

Definition is_case (in_switch : bool) (line : str) : bool :=
  in_switch && startswith (lit "case") (strip line) && contains (lit ":") line.

Definition next_flag (in_switch : bool) (line : str) : bool :=
  if opens_switch line then true
  else if closes_switch in_switch line then false
  else in_switch.

Definition wraps (in_switch : bool) (line : str) (rest : list str) : bool :=
  negb (opens_switch line) && negb (closes_switch in_switch line)
  && is_case in_switch line
  && match rest with
     | following :: _ => is_declaration (strip following)
     | [] => false
     end.

Definition brace_line (following : str) : str :=
  str_replace (strip following) (lit "        {") following.

Definition indented (following : str) : str := lit "        " ++ strip following.

Definition inserted (in_switch : bool) (line : str) (rest : list str) : list str :=
  match rest with
  | following :: _ =>
      if wraps in_switch line rest then [brace_line following; indented following]
      else []
  | [] => []
  end.

End CasePass.

Module ElsePass.
Import BuildFixes.

(** The repair loop seen from the current line: [before] holds the lines
    above it, nearest first ([lines[i-1]], [lines[i-2]], ...). *)
Fixpoint scan_back (before : list str) : option str :=
  match before with
  | [] => None
  | l :: before' => if contains (lit "if (") l then Some l else scan_back before'
  end.

Definition malformed_after (before : list str) (line : str) : option str :=
  if contains (lit "} else {") line then
    match before with
    | [] => None
    | prev :: _ =>
        let prev_line := strip prev in
        if unterminated prev_line then
          if mentions_nodes prev_line then scan_back before else None
        else None
    end
  else None.

Fixpoint repair (before lines : list str) : list str :=
  match lines with
  | [] => []
  | line :: rest =>
      match malformed_after before line with
      | Some if_line =>
          fixed_section (strip if_line) ++
          match rest with
          | [] => []
          | skipped :: rest' => repair (skipped :: line :: before) rest'
          end
      | None => line :: repair (line :: before) rest
      end
  end.



End ElsePass.

Module Scenarios.

(** A handler without any [switch]: the switch-case pass has nothing to do. *)
Definition plain_handler : str := lit "const x = 1;".

Definition untouched_world : world :=
  World {[ TypescriptFixes.observatory_path := plain_handler ]} ∅ [] [].

Definition plain_router_world : world :=
  World {[ FixRegex.router_path := lit "router.get('/users')" ]} ∅ [] [].

(** [tenant.ts] is there, [router.ts] is not. *)
Definition no_router_world : world :=
  World {[ FixRegex.tenant_path := lit "path.split(/\//)" ]} ∅ [] [].




Definition malformed_lines : list str :=
  [lit "  if (templateId) {"; lit "    const nodes = await this.load()";
   lit "      } else {"; lit "    return [];"; lit "  }"].

Definition malformed_text : str := unlines malformed_lines.

(** Scenario 3 of the specification. *)
Definition scenario3_lines : list str :=
  [lit "if (x) {"; lit "const y = f()"; lit "} else {"].

Definition orphan_else_lines : list str :=
  [lit "load();"; lit "const nodes = f()"; lit "} else {"; lit "done();"].

Definition switch_case_lines : list str :=
  [lit "switch (kind) {"; lit "  case 'switch': {"; lit "    const a = 1;"].

(** The write to [api.ts] fails once twelve characters are in the file. *)
Definition api_path : str := lit "lambda/api/utils/api.ts".

Definition failing_write_world : world :=
  World {[ api_path := lit "let data: any;" ]} {[ api_path := AtWrite 12 ]} [] [].

Definition case_lines : list str :=
  [lit "  case 1:"; lit "    const a = f(); "; lit "    break;"].

End Scenarios.

(** ** Notions used in the further properties *)





(** The lines "Fixed: p" of the writes [ws], in their order. *)
Definition reports (ws : list (str * str)) : list msg :=
  map (fun pw => Fixed (fst pw)) ws.


Definition build_targets : list str :=
  BuildFixes.files_to_fix_const ++ [BuildFixes.flow_nodes_path].

Definition const_targets : list str := map ConstErrors.file ConstErrors.fixes.


(** The text without its backslashes. *)
Definition BACKSLASH : ascii := ascii_of_nat 92.

Definition without_backslashes (s : str) : str :=
  List.filter (fun c => negb (Ascii.eqb c BACKSLASH)) s.

(** The class of [fix-regex.py], with the slash escaped and without. *)
Definition escaped : str := lit "[^\/]".
Definition unescaped : str := lit "[^/]".

(** The generic parameter that [common_patterns] rewrites. *)
Definition generic_any : str := lit "<any>".
Definition generic_unknown : str := lit "<unknown>".

(** [c] is a single or a double quote. *)
Definition quote (c : ascii) : bool := existsb (Ascii.eqb c) (lit "'" ++ [DQUOTE]).






(** The inputs of the further examples. *)
Module Examples.

(** [api.ts] with one [any] and a handler with one [case] to wrap. *)
Definition two_files_world : world :=
  World (<[ TypescriptFixes.observatory_path :=
              unlines [lit "switch (kind) {"; lit "  case 1:"; lit "    const a = f();";
                       lit "}"] ]>
           {[ Scenarios.api_path := lit "let data: any;" ]}) ∅ [] [].

(** [lab.ts] with a counter to free and a [flow-nodes.ts] to repair. *)
Definition build_world : world :=
  World (<[ BuildFixes.flow_nodes_path := Scenarios.malformed_text ]>
           {[ lit "src/lib/api/lab.ts" := lit "const totalDuration = 0;" ]}) ∅ [] [].


(** A tree that holds none of the files of [fix_final_const_errors.py]. *)
Definition other_tree : world := World {[ lit "README.md" := lit "# API" ]} ∅ [] [].

(** The values are used below the marker comment and declared nowhere. *)
Definition undeclared_text : str :=
  lit "    // Default to scan with filters" ++ [LF]
  ++ lit "    expressionAttributeValues[':a'] = 1;".


(** The lines after the brace that closes an inner block. *)
Definition after_block_text : str := unlines [lit "  case 2:"; lit "    const b = 2;"].

End Examples.

(** What [fix_const_errors] leaves in a file, from what it found there. *)




(** A run from [w] to [w'] that made the writes [ws], to files among [ps],
    reported each of them, and wrote no file back as it was: every text
    written differs from the text the file held in [w]. *)
Definition wrote_changes (ps : list str) (w w' : world) (ws : list (str * str)) : Prop :=
  writes w' = writes w ++ ws
  /\ console w' = console w ++ reports ws
  /\ Forall (fun pw => In (fst pw) ps
                       /\ exists old, files w !! fst pw = Some old /\ snd pw <> old) ws
  /\ (forall q, ~ In q ps -> files w' !! q = files w !! q).

Import TypescriptFixes CasePass BuildFixes ElsePass Scenarios.

(** ** Facts about the string operations *)

Lemma startswith_app (p s : str) : startswith p (p ++ s) = true.
Proof.
  induction p as [|a p IH]; simpl; [reflexivity|].
  now rewrite Ascii.eqb_refl.
Qed.

Lemma startswith_inv (p s : str) :
  startswith p s = true -> exists t, s = p ++ t.
Proof.
  revert s; induction p as [|a p IH]; intros s H; simpl in *.
  - now exists s.
  - destruct s as [|b s]; [discriminate|].
    apply andb_prop in H as [Hab H].
    apply Ascii.eqb_eq in Hab; subst b.
    destruct (IH _ H) as [t ->]. now exists t.
Qed.

Lemma startswith_nil_r (p : str) : startswith p [] = true -> p = [].
Proof. destruct p; [reflexivity | discriminate]. Qed.

Lemma contains_app_l (p w s : str) :
  contains p s = true -> contains p (w ++ s) = true.
Proof.
  intros H; induction w as [|c w IH]; simpl; [exact H|].
  rewrite IH. apply orb_true_r.
Qed.

Lemma contains_intro (p pre suf : str) : contains p (pre ++ p ++ suf) = true.
Proof.
  apply contains_app_l. destruct (p ++ suf) eqn:E; simpl.
  - destruct p; [reflexivity | discriminate].
  - rewrite <- E, startswith_app. reflexivity.
Qed.

Lemma contains_inv (p s : str) :
  contains p s = true -> exists pre suf, s = pre ++ p ++ suf.
Proof.
  induction s as [|c s IH]; simpl; intros H.
  - rewrite orb_false_r in H. apply startswith_nil_r in H. subst.
    now exists [], [].
  - apply orb_prop in H as [H|H].
    + destruct (startswith_inv _ _ H) as [t Ht]. exists [], t. exact Ht.
    + destruct (IH H) as (pre & suf & ->). now exists (c :: pre), suf.
Qed.


(** *** Stripping *)

Lemma lstrip_split (s : str) : exists w, s = w ++ lstrip s /\ spaces w.
Proof.
  induction s as [|c s (w & Hs & Hw)]; simpl.
  - exists []. split; [reflexivity | constructor].
  - destruct (isspace c) eqn:Hc.
    + exists (c :: w). split; [simpl; now f_equal | now constructor].
    + exists []. split; [reflexivity | constructor].
Qed.

Lemma lstrip_first (s : str) : lstrip s = [] \/ first_nonspace (lstrip s) = true.
Proof.
  induction s as [|c s IH]; simpl; [now left|].
  destruct (isspace c) eqn:Hc; [exact IH|].
  right; simpl. now rewrite Hc.
Qed.

Lemma lstrip_spaces (w s : str) : spaces w -> lstrip (w ++ s) = lstrip s.
Proof.
  induction 1 as [|c w Hc _ IH]; simpl; [reflexivity|]. now rewrite Hc.
Qed.

Lemma lstrip_all_spaces (w : str) : spaces w -> lstrip w = [].
Proof.
  intros H. rewrite <- (app_nil_r w). now rewrite lstrip_spaces.
Qed.

Lemma lstrip_fixed (s : str) : first_nonspace s = true -> lstrip s = s.
Proof.
  destruct s as [|c s]; simpl; [reflexivity|].
  now destruct (isspace c).
Qed.

Lemma lstrip_app (a b : str) :
  lstrip (a ++ b) = match lstrip a with
                    | [] => lstrip b
                    | _ :: _ => lstrip a ++ b
                    end.
Proof.
  induction a as [|c a IH]; simpl; [now destruct (lstrip b)|].
  destruct (isspace c); [exact IH | reflexivity].
Qed.

Lemma rstrip_cons (c : ascii) (s : str) :
  rstrip (c :: s) = match rstrip s with
                    | [] => if isspace c then [] else [c]
                    | _ :: _ => c :: rstrip s
                    end.
Proof.
  unfold rstrip; simpl. rewrite lstrip_app.
  destruct (lstrip (rev s)) as [|d t] eqn:E; simpl.
  - now destruct (isspace c).
  - rewrite rev_app_distr; simpl.
    destruct (rev t ++ [d]) eqn:E'; [now destruct (rev t)|reflexivity].
Qed.

Lemma rstrip_nil : rstrip [] = [].
Proof. reflexivity. Qed.

Lemma spaces_rev (w : str) : spaces w -> spaces (rev w).
Proof. apply List.Forall_rev. Qed.


Lemma rstrip_split (s : str) : exists w, s = rstrip s ++ w /\ spaces w.
Proof.
  destruct (lstrip_split (rev s)) as (w & Hs & Hw).
  exists (rev w). split.
  - unfold rstrip. rewrite <- rev_app_distr, <- Hs. now rewrite rev_involutive.
  - now apply spaces_rev.
Qed.

Lemma lstrip_rstrip (s : str) : lstrip (rstrip s) = rstrip (lstrip s).
Proof.
  induction s as [|c s IH]; [reflexivity|].
  rewrite rstrip_cons. simpl lstrip at 2.
  destruct (isspace c) eqn:Hc.
  - rewrite <- IH. destruct (rstrip s) eqn:E; simpl; [reflexivity|].
    now rewrite Hc.
  - rewrite rstrip_cons.
    destruct (rstrip s); simpl; now rewrite Hc.
Qed.

Lemma strip_split (s : str) :
  exists pre suf, s = pre ++ strip s ++ suf /\ spaces pre /\ spaces suf.
Proof.
  destruct (rstrip_split s) as (suf & Hs & Hsuf).
  destruct (lstrip_split (rstrip s)) as (pre & Hr & Hpre).
  exists pre, suf. repeat split; try assumption.
  unfold strip. rewrite app_assoc, <- Hr. exact Hs.
Qed.



Lemma last_nonspace_app (a : str) (c : ascii) (b : str) :
  last_nonspace (a ++ c :: b) = last_nonspace (c :: b).
Proof.
  induction a as [|d a IH]; [reflexivity|].
  simpl app. simpl last_nonspace at 1.
  destruct (a ++ c :: b) eqn:E; [now destruct a | exact IH].
Qed.

Lemma rstrip_last (s : str) : rstrip s = [] \/ last_nonspace (rstrip s) = true.
Proof.
  induction s as [|c s IH]; [now left|].
  rewrite rstrip_cons. destruct (rstrip s) as [|d t] eqn:E.
  - destruct (isspace c) eqn:Hc; [now left|]. right; simpl. now rewrite Hc.
  - right. destruct IH as [IH|IH]; [discriminate|]. exact IH.
Qed.

Lemma strip_first (s : str) : strip s = [] \/ first_nonspace (strip s) = true.
Proof. apply lstrip_first. Qed.

Lemma strip_last (s : str) : strip s = [] \/ last_nonspace (strip s) = true.
Proof. unfold strip. rewrite lstrip_rstrip. apply rstrip_last. Qed.

(** *** Substrings and padding *)

Lemma startswith_space (p : str) (c : ascii) (s : str) :
  first_nonspace p = true -> isspace c = true -> startswith p (c :: s) = false.
Proof.
  destruct p as [|a p]; simpl; [discriminate|]. intros Ha Hc.
  destruct (Ascii.eqb_spec a c) as [->|]; [|reflexivity].
  now rewrite Hc in Ha.
Qed.

Lemma startswith_nil_false (p : str) : first_nonspace p = true -> startswith p [] = false.
Proof. now destruct p. Qed.

Lemma contains_spaces_l (p w s : str) :
  first_nonspace p = true -> spaces w -> contains p (w ++ s) = contains p s.
Proof.
  intros Hp. induction 1 as [|c w Hc _ IH]; simpl; [reflexivity|].
  now rewrite startswith_space.
Qed.

Lemma startswith_in_spaces (p w : str) :
  last_nonspace p = true -> spaces w -> startswith p w = false.
Proof.
  intros Hp Hw. revert p Hp. induction Hw as [|d w Hd _ IH]; intros p Hp.
  - now destruct p.
  - destruct p as [|a p]; [discriminate|]. simpl.
    destruct p as [|b p].
    + simpl in Hp. destruct (Ascii.eqb_spec a d) as [->|]; [|reflexivity].
      now rewrite Hd in Hp.
    + rewrite (IH (b :: p) Hp). apply andb_false_r.
Qed.

Lemma startswith_spaces_r (p t w : str) :
  last_nonspace p = true -> spaces w -> startswith p (t ++ w) = startswith p t.
Proof.
  intros Hp Hw. revert p Hp. induction t as [|c t IH]; intros p Hp.
  - simpl app. rewrite startswith_in_spaces by assumption. now destruct p.
  - destruct p as [|a p]; [reflexivity|]. simpl.
    destruct p as [|b p]; [reflexivity|].
    now rewrite (IH (b :: p) Hp).
Qed.

Lemma contains_spaces_r (p s w : str) :
  first_nonspace p = true -> last_nonspace p = true -> spaces w ->
  contains p (s ++ w) = contains p s.
Proof.
  intros Hf Hl Hw. induction s as [|c s IH].
  - simpl app. rewrite <- (app_nil_r w), contains_spaces_l by assumption.
    reflexivity.
  - simpl. rewrite IH. f_equal.
    change (c :: s ++ w) with ((c :: s) ++ w). now apply startswith_spaces_r.
Qed.

Lemma contains_pad (p pre core suf : str) :
  first_nonspace p = true -> last_nonspace p = true -> spaces pre -> spaces suf ->
  contains p (pre ++ core ++ suf) = contains p core.
Proof.
  intros. rewrite contains_spaces_l, contains_spaces_r by assumption. reflexivity.
Qed.

Lemma contains_strip (p s : str) :
  first_nonspace p = true -> last_nonspace p = true ->
  contains p (strip s) = contains p s.
Proof.
  intros Hf Hl. destruct (strip_split s) as (pre & suf & Hs & Hpre & Hsuf).
  rewrite Hs at 2. now rewrite contains_pad.
Qed.

(** *** Replacement *)

Lemma replace_from_skip (old new q r : str) :
  replace_from old new (length q) (q ++ r) = replace_from old new 0 r.
Proof.
  induction q as [|c q IH]; simpl; [|exact IH].
  destruct r; reflexivity.
Qed.

Lemma replace_from_hit (old new r : str) :
  old <> [] ->
  replace_from old new 0 (old ++ r) = new ++ replace_from old new 0 r.
Proof.
  intros Hne. destruct old as [|a q]; [congruence|].
  simpl app. simpl replace_from.
  rewrite Ascii.eqb_refl, startswith_app. simpl.
  rewrite Nat.sub_0_r. now rewrite replace_from_skip.
Qed.

Lemma replace_from_spaces (old new w s : str) :
  first_nonspace old = true -> spaces w ->
  replace_from old new 0 (w ++ s) = w ++ replace_from old new 0 s.
Proof.
  intros Hf. induction 1 as [|c w Hc _ IH]; [reflexivity|].
  simpl app. simpl replace_from.
  change (match old with [] => true | a :: p' => Ascii.eqb a c && startswith p' (w ++ s) end)
    with (startswith old (c :: w ++ s)).
  rewrite startswith_space by assumption. now rewrite IH.
Qed.

Lemma replace_padded (core new pre suf : str) :
  first_nonspace core = true -> spaces pre -> spaces suf ->
  str_replace core new (pre ++ core ++ suf) = pre ++ new ++ suf.
Proof.
  intros Hf Hpre Hsuf.
  assert (Hne : core <> []) by (intros ->; discriminate).
  unfold str_replace. destruct core as [|a q] eqn:E; [congruence|]. rewrite <- E in *.
  rewrite replace_from_spaces, replace_from_hit by assumption.
  rewrite <- (app_nil_r suf) at 1.
  rewrite replace_from_spaces by assumption. simpl. now rewrite app_nil_r.
Qed.

(** The line [lines[i + 1].replace(next_line, new)] where [next_line] is
    the stripped line: the indentation and the trailing blanks stay. *)
Lemma replace_stripped (new s : str) :
  strip s <> [] ->
  exists pre suf, s = pre ++ strip s ++ suf /\ spaces pre /\ spaces suf /\
                  str_replace (strip s) new s = pre ++ new ++ suf.
Proof.
  intros Hne. destruct (strip_split s) as (pre & suf & Hs & Hpre & Hsuf).
  exists pre, suf. repeat split; try assumption.
  rewrite Hs at 2. apply replace_padded; try assumption.
  destruct (strip_first s); [contradiction | assumption].
Qed.

(** *** Lines *)

Lemma str_split_cons (sep : ascii) (s : str) : str_split sep s <> [].
Proof.
  induction s as [|c s IH]; simpl; [discriminate|].
  destruct (Ascii.eqb c sep); [discriminate|].
  destruct (str_split sep s); discriminate.
Qed.

Lemma lines_of_nonempty (s : str) : lines_of s <> [].
Proof. apply str_split_cons. Qed.

Lemma lines_of_no_lf (s : str) : Forall no_lf (lines_of s).
Proof.
  unfold lines_of. induction s as [|c s IH]; simpl.
  - constructor; [intros [] | constructor].
  - destruct (Ascii.eqb_spec c LF) as [->|Hc].
    + constructor; [intros [] | exact IH].
    + destruct (str_split LF s) as [|l ls]; [constructor; [|constructor] |].
      * intros [H|[]]. congruence.
      * inversion IH; subst. constructor; [|assumption].
        intros [H|H]; [congruence | contradiction].
Qed.

Lemma unlines_cons (l : str) (ls : list str) :
  ls <> [] -> unlines (l :: ls) = l ++ LF :: unlines ls.
Proof. destruct ls; [congruence | reflexivity]. Qed.

Lemma unlines_lines_of (s : str) : unlines (lines_of s) = s.
Proof.
  unfold lines_of. induction s as [|c s IH]; [reflexivity|]. simpl.
  destruct (Ascii.eqb_spec c LF) as [->|Hc].
  - rewrite unlines_cons by apply str_split_cons. simpl. now rewrite IH.
  - pose proof (str_split_cons LF s) as Hne.
    destruct (str_split LF s) as [|l ls]; [congruence|].
    change (unlines ((c :: l) :: ls) = c :: s).
    rewrite <- IH. now destruct ls.
Qed.

Lemma lines_of_app_lf (l rest : str) :
  no_lf l -> lines_of (l ++ LF :: rest) = l :: lines_of rest.
Proof.
  unfold lines_of. induction l as [|c l IH]; intros Hl; simpl.
  - reflexivity.
  - destruct (Ascii.eqb_spec c LF) as [->|Hc]; [exfalso; apply Hl; now left|].
    rewrite IH; [reflexivity|]. intros H. apply Hl. now right.
Qed.

Lemma lines_of_single (l : str) : no_lf l -> lines_of l = [l].
Proof.
  unfold lines_of. induction l as [|c l IH]; intros Hl; simpl; [reflexivity|].
  destruct (Ascii.eqb_spec c LF) as [->|Hc]; [exfalso; apply Hl; now left|].
  rewrite IH; [reflexivity|]. intros H. apply Hl. now right.
Qed.

Lemma lines_of_unlines (ls : list str) :
  ls <> [] -> Forall no_lf ls -> lines_of (unlines ls) = ls.
Proof.
  induction ls as [|l ls IH]; [congruence|]. intros _ Hls.
  inversion Hls; subst. destruct ls as [|l' ls].
  - simpl. now apply lines_of_single.
  - rewrite unlines_cons by discriminate.
    rewrite lines_of_app_lf by assumption. f_equal. now apply IH.
Qed.

Lemma no_lf_app (a b : str) : no_lf a -> no_lf b -> no_lf (a ++ b).
Proof. unfold no_lf. intros Ha Hb H. apply in_app_or in H. tauto. Qed.

Lemma no_lf_strip (s : str) : no_lf s -> no_lf (strip s).
Proof.
  destruct (strip_split s) as (pre & suf & Hs & _). unfold no_lf.
  intros H Hin. apply H. rewrite Hs. apply in_or_app. right.
  apply in_or_app. now left.
Qed.

(** ** The matcher *)

Lemma suffix_of_refl (s : str) : suffix_of s s.
Proof. now exists []. Qed.

Lemma suffix_of_trans (a b c : str) : suffix_of a b -> suffix_of b c -> suffix_of a c.
Proof. intros [u ->] [v ->]. exists (v ++ u). now rewrite app_assoc. Qed.

Lemma suffix_of_cons (a : ascii) (s : str) : suffix_of s (a :: s).
Proof. now exists [a]. Qed.

Lemma suffix_of_length (s' s : str) : suffix_of s' s -> length s' <= length s.
Proof. intros [u ->]. rewrite length_app. lia. Qed.

Lemma suffix_of_same_length (s' s : str) :
  suffix_of s' s -> length s' = length s -> s' = s.
Proof.
  intros [u ->] H. rewrite length_app in H.
  destruct u; [reflexivity | simpl in H; lia].
Qed.

(** A successful match is an answer of the continuation, given on a suffix
    of the text. *)
Lemma rmatch_answer (r : regex) :
  forall prev s c k m,
    rmatch r prev s c k = Some m ->
    exists prev' s' c', suffix_of s' s /\ k prev' s' c' = Some m.
Proof.
  induction r as [| a | p | r1 IH1 r2 IH2 | r1 IH1 r2 IH2 | r IH | n r IH | r IH |];
    intros prev s c k m H; cbn [rmatch] in H.
  - exists prev, s, c. split; [apply suffix_of_refl | exact H].
  - destruct s as [|b s]; [discriminate|].
    destruct (Ascii.eqb a b); [|discriminate].
    exists (Some b), s, c. split; [apply suffix_of_cons | exact H].
  - destruct s as [|b s]; [discriminate|].
    destruct (p b); [|discriminate].
    exists (Some b), s, c. split; [apply suffix_of_cons | exact H].
  - apply IH1 in H as (p1 & s1 & c1 & Hs1 & H).
    apply IH2 in H as (p2 & s2 & c2 & Hs2 & H).
    exists p2, s2, c2. split; [eapply suffix_of_trans; eassumption | exact H].
  - destruct (rmatch r1 prev s c k) as [m1|] eqn:E.
    + injection H as <-. now apply IH1 in E.
    + now apply IH2 in H.
  - remember (length s) as fuel eqn:Hfuel. clear Hfuel.
    revert prev s c H. induction fuel as [|fuel IHf]; intros prev s c H.
    + exists prev, s, c. split; [apply suffix_of_refl | exact H].
    + cbn [star_loop] in H.
      match type of H with
      | match ?e with _ => _ end = _ => destruct e as [m1|] eqn:E
      end.
      * injection H as <-.
        apply IH in E as (p1 & s1 & c1 & Hs1 & E).
        destruct (length s1 <? length s); [|discriminate].
        apply IHf in E as (p2 & s2 & c2 & Hs2 & E).
        exists p2, s2, c2. split; [eapply suffix_of_trans; eassumption | exact E].
      * exists prev, s, c. split; [apply suffix_of_refl | exact H].
  - apply IH in H as (p1 & s1 & c1 & Hs1 & H).
    exists p1, s1, ((n, firstn (length s - length s1) s) :: c1). now split.
  - destruct (rmatch r prev s c (fun prev' s' c' => Some (prev', s', c')))
      as [[[? ?] c']|]; [|discriminate].
    exists prev, s, c'. split; [apply suffix_of_refl | exact H].
  - destruct (xorb (isword_at prev) (isword_at (hd_error s))); [|discriminate].
    exists prev, s, c. split; [apply suffix_of_refl | exact H].
Qed.

Lemma match_here_suffix (r : regex) (prev : option ascii) (s : str) (adv : bool)
    (prev' : option ascii) (s' : str) (c' : caps) :
  match_here r prev s adv = Some (prev', s', c') ->
  suffix_of s' s /\ (adv = true -> length s' < length s).
Proof.
  unfold match_here. intros H.
  apply rmatch_answer in H as (p1 & s1 & c1 & Hs1 & H).
  destruct adv; simpl in H.
  - destruct (Nat.eqb_spec (length s1) (length s)) as [|Hne]; [discriminate|].
    injection H as <- <- <-. split; [assumption|]. intros _.
    apply suffix_of_length in Hs1. lia.
  - injection H as <- <- <-. split; [assumption | discriminate].
Qed.

(** The matcher uses its continuation only through its answers. *)
Lemma rmatch_ext (r : regex) :
  forall prev s c (k1 k2 : cont),
    (forall prev' s' c', k1 prev' s' c' = k2 prev' s' c') ->
    rmatch r prev s c k1 = rmatch r prev s c k2.
Proof.
  induction r as [| a | p | r1 IH1 r2 IH2 | r1 IH1 r2 IH2 | r IH | n r IH | r IH |];
    intros prev s c k1 k2 Hk; cbn [rmatch].
  - apply Hk.
  - destruct s as [|b s]; [reflexivity|]. now rewrite Hk.
  - destruct s as [|b s]; [reflexivity|]. now rewrite Hk.
  - apply IH1. intros p1 s1 c1. now apply IH2.
  - rewrite (IH1 prev s c k1 k2 Hk), (IH2 prev s c k1 k2 Hk). reflexivity.
  - generalize (length s) as fuel. intros fuel. revert prev s c.
    induction fuel as [|fuel IHf]; intros prev s c; cbn [star_loop]; [apply Hk|].
    rewrite Hk.
    erewrite IH; [reflexivity|]. intros p1 s1 c1. cbn beta.
    now rewrite IHf.
  - apply IH. intros p1 s1 c1. apply Hk.
  - destruct (rmatch r prev s c (fun prev' s' c' => Some (prev', s', c')))
      as [[[? ?] c']|]; [apply Hk | reflexivity].
  - now rewrite Hk.
Qed.

Lemma rmatch_no_answer (r : regex) (prev : option ascii) (s : str) (c : caps) :
  rmatch r prev s c (fun _ _ _ => None) = None.
Proof.
  destruct (rmatch r prev s c (fun _ _ _ => None)) as [m|] eqn:E; [|reflexivity].
  apply rmatch_answer in E as (? & ? & ? & _ & E). discriminate.
Qed.

Lemma star_loop_end (r : regex) (k : cont) (fuel : nat) (prev : option ascii)
    (c : caps) :
  star_loop (rmatch r) k fuel prev [] c = k prev [] c.
Proof.
  destruct fuel as [|fuel]; [reflexivity|]. cbn [star_loop].
  erewrite rmatch_ext; [rewrite rmatch_no_answer; reflexivity|].
  intros p1 s1 c1. reflexivity.
Qed.

(** The fuel [r*] is given, the length of the text, is enough: more fuel
    gives the same answer. *)
Lemma star_loop_fuel (r : regex) (k : cont) (fuel1 : nat) :
  forall fuel2 prev s c,
    length s <= fuel1 -> length s <= fuel2 ->
    star_loop (rmatch r) k fuel1 prev s c = star_loop (rmatch r) k fuel2 prev s c.
Proof.
  induction fuel1 as [|fuel1 IH]; intros fuel2 prev s c H1 H2.
  - destruct s; [|simpl in H1; lia]. now rewrite !star_loop_end.
  - destruct fuel2 as [|fuel2].
    + destruct s; [|simpl in H2; lia]. now rewrite !star_loop_end.
    + cbn [star_loop].
      erewrite rmatch_ext; [reflexivity|]. intros p1 s1 c1. cbn beta.
      destruct (Nat.ltb_spec (length s1) (length s)) as [Hlt|]; [|reflexivity].
      apply IH; lia.
Qed.

Lemma rmatch_star_fuel (r : regex) (k : cont) (fuel : nat) (prev : option ascii)
    (s : str) (c : caps) :
  length s <= fuel ->
  star_loop (rmatch r) k fuel prev s c = rmatch (Star r) prev s c k.
Proof. intros H. cbn [rmatch]. now apply star_loop_fuel. Qed.

(** *** Literal patterns *)

Lemma rmatch_chars (x : str) :
  forall prev s c k,
    rmatch (chars x) prev s c k
    = if startswith x s then k (lastc x prev) (drop (length x) s) c else None.
Proof.
  induction x as [|a x IH]; intros prev s c k; [reflexivity|].
  cbn [chars fold_right rmatch startswith lastc length drop].
  destruct s as [|b s]; [reflexivity|].
  destruct (Ascii.eqb_spec a b) as [->|]; [|reflexivity].
  apply IH.
Qed.



(** ** [re.sub] is the global replacement *)

Section GlobalReplaceFacts.
Variable r : regex.
Variable repl : list titem.

Lemma lastc_app (u v : str) (prev : option ascii) :
  lastc (u ++ v) prev = lastc v (lastc u prev).
Proof. revert prev. induction u as [|a u IH]; intros prev; [reflexivity | apply IH]. Qed.

Lemma adv_after_app (u v : str) (adv : bool) :
  adv_after (u ++ v) adv = adv_after v (adv_after u adv).
Proof. destruct u; [reflexivity | now destruct v]. Qed.

Lemma unmatched_app (u v rest : str) :
  forall prev adv,
    unmatched r prev adv (u ++ v) rest
    <-> unmatched r prev adv u (v ++ rest)
        /\ unmatched r (lastc u prev) (adv_after u adv) v rest.
Proof.
  induction u as [|a u IH]; intros prev adv.
  - simpl. tauto.
  - cbn [app unmatched lastc adv_after]. rewrite IH, <- app_assoc.
    destruct u; simpl; tauto.
Qed.

(** One more copied character in front of a replaced text. *)
Lemma gr_copy (prev : option ascii) (adv : bool) (a : ascii) (s out : str) :
  match_here r prev (a :: s) adv = None ->
  global_replace r repl (Some a) false s out ->
  global_replace r repl prev adv (a :: s) (a :: out).
Proof.
  intros Hnone H. inversion H as [? ? ? Hu Hend | ? ? u m t prev' c out' Hu Hm Hne Hrest
                                  | ? ? u t prev' c out' Hu Hm Hrest]; subst.
  - apply gr_rest.
    + cbn [unmatched]. now rewrite app_nil_r.
    + cbn [lastc adv_after]. now destruct out.
  - apply (gr_hit r repl prev adv (a :: u) m t prev' c out').
    + cbn [unmatched]. now split.
    + cbn [lastc adv_after]. now destruct u.
    + assumption.
    + assumption.
  - apply (gr_empty r repl prev adv (a :: u) t prev' c out').
    + cbn [unmatched]. now split.
    + cbn [lastc adv_after]. now destruct u.
    + assumption.
Qed.

(** With the fuel [re_sub] gives it, or more, the scan ends by itself. *)
Lemma sub_from_global (fuel : nat) :
  forall (prev : option ascii) (s : str) (adv : bool),
    2 * length s + (if adv then 1 else 2) <= fuel ->
    global_replace r repl prev adv s (sub_from fuel r repl prev s adv).
Proof.
  induction fuel as [|fuel IH]; intros prev s adv Hfuel.
  - destruct adv; lia.
  - cbn [sub_from].
    destruct (match_here r prev s adv) as [[[prev' s'] c']|] eqn:Hm.
    + destruct (match_here_suffix _ _ _ _ _ _ _ Hm) as [[m Hs] Hadv].
      destruct (Nat.ltb_spec (length s') (length s)) as [Hlt|Hge].
      * subst s.
        apply (gr_hit r repl prev adv [] m s' prev' c').
        -- exact I.
        -- exact Hm.
        -- intros ->. simpl in Hlt. lia.
        -- apply IH. rewrite length_app in Hfuel, Hlt. destruct adv; lia.
      * assert (Heq : s' = s).
        { apply suffix_of_same_length; [now exists m|].
          subst s. rewrite length_app in *. lia. }
        destruct adv; [specialize (Hadv eq_refl); lia|].
        rewrite Heq in Hm.
        apply (gr_empty r repl prev false [] s prev' c').
        -- exact I.
        -- exact Hm.
        -- apply IH. lia.
    + destruct s as [|a s].
      * apply gr_rest; [exact I | exact Hm].
      * apply gr_copy; [exact Hm|]. apply IH. simpl in Hfuel. destruct adv; lia.
Qed.

Lemma re_sub_global (s : str) : global_replace r repl None false s (re_sub r repl s).
Proof. apply sub_from_global. lia. Qed.

(** The specification leaves no choice. *)
Lemma split_compare (u1 v1 u2 v2 : str) :
  u1 ++ v1 = u2 ++ v2 ->
  (u1 = u2 /\ v1 = v2)
  \/ (exists w, w <> [] /\ u2 = u1 ++ w /\ v1 = w ++ v2)
  \/ (exists w, w <> [] /\ u1 = u2 ++ w /\ v2 = w ++ v1).
Proof.
  revert u2. induction u1 as [|a u1 IH]; intros u2 H.
  - destruct u2 as [|b u2]; [now left|].
    right; left. exists (b :: u2). simpl in *. repeat split; [discriminate | auto].
  - destruct u2 as [|b u2].
    + right; right. exists (a :: u1). simpl in *. repeat split; [discriminate | auto].
    + simpl in H. injection H as -> H.
      destruct (IH _ H) as [[-> ->] | [(w & Hw & -> & ->) | (w & Hw & -> & ->)]].
      * now left.
      * right; left. now exists w.
      * right; right. now exists w.
Qed.

(** A match found at the end of [u1] contradicts [u1 ++ w] being copied. *)
Lemma unmatched_clash (u w rest : str) (prev : option ascii) (adv : bool) (m : mstate) :
  w <> [] ->
  unmatched r prev adv (u ++ w) rest ->
  match_here r (lastc u prev) (w ++ rest) (adv_after u adv) = Some m ->
  False.
Proof.
  intros Hw H Hm. apply unmatched_app in H as [_ H].
  destruct w as [|a w]; [congruence|]. destruct H as [H _]. congruence.
Qed.

Lemma rest_clash (u w : str) (prev : option ascii) (adv : bool) (m : mstate) :
  unmatched r prev adv (u ++ w) [] ->
  match_here r (lastc (u ++ w) prev) [] (adv_after (u ++ w) adv) = None ->
  match_here r (lastc u prev) w (adv_after u adv) = Some m ->
  False.
Proof.
  intros Hu Hend Hm. destruct w as [|a w].
  - rewrite app_nil_r in Hend. congruence.
  - apply (unmatched_clash u (a :: w) [] prev adv m); [discriminate | assumption|].
    now rewrite app_nil_r.
Qed.

Lemma global_replace_unique (prev : option ascii) (adv : bool) (s out1 out2 : str) :
  global_replace r repl prev adv s out1 ->
  global_replace r repl prev adv s out2 ->
  out1 = out2.
Proof.
  intros H1. revert out2.
  induction H1 as [prev adv s Hu Hend
                  | prev adv u m t prev' c out Hu Hm Hne Hrest IH
                  | prev adv u t prev' c out Hu Hm Hrest IH]; intros out2 H2.
  - inversion H2 as [? ? ? Hu2 Hend2 | ? ? u2 m2 t2 prev2 c2 o2 Hu2 Hm2 Hne2 Hrest2
                     | ? ? u2 t2 prev2 c2 o2 Hu2 Hm2 Hrest2]; subst.
    + reflexivity.
    + exfalso. eapply rest_clash; eauto.
    + exfalso. eapply rest_clash; eauto.
  - inversion H2 as [? ? ? Hu2 Hend2 | ? ? u2 m2 t2 prev2 c2 o2 Hu2 Hm2 Hne2 Hrest2
                     | ? ? u2 t2 prev2 c2 o2 Hu2 Hm2 Hrest2]; subst.
    + exfalso. eapply rest_clash; eauto.
    + match goal with
      | E : _ ++ _ = _ ++ _ |- _ =>
          destruct (split_compare _ _ _ _ E)
            as [[Hu' Hv] | [(w & Hw & Hu' & Hv) | (w & Hw & Hu' & Hv)]]; clear E
      end.
      * subst u2. rewrite Hv in Hm2. rewrite Hm in Hm2.
        injection Hm2 as <- <- <-. f_equal. f_equal. now apply IH.
      * exfalso. subst u. rewrite Hv in Hm2. eapply unmatched_clash; eauto.
      * exfalso. subst u2. rewrite Hv in Hm. eapply unmatched_clash; eauto.
    + match goal with
      | E : _ ++ _ = _ ++ _ |- _ =>
          destruct (split_compare _ _ _ _ E)
            as [[Hu' Hv] | [(w & Hw & Hu' & Hv) | (w & Hw & Hu' & Hv)]]; clear E
      end.
      * exfalso. subst u2. rewrite Hv in Hm2. rewrite Hm in Hm2.
        injection Hm2 as _ Ht _. apply Hne.
        apply (app_inv_tail t m []). simpl. congruence.
      * exfalso. subst u. rewrite Hv in Hm2. eapply unmatched_clash; eauto.
      * exfalso. subst u2. rewrite Hv in Hm. eapply unmatched_clash; eauto.
  - inversion H2 as [? ? ? Hu2 Hend2 | ? ? u2 m2 t2 prev2 c2 o2 Hu2 Hm2 Hne2 Hrest2
                     | ? ? u2 t2 prev2 c2 o2 Hu2 Hm2 Hrest2]; subst.
    + exfalso. eapply rest_clash; eauto.
    + match goal with
      | E : _ ++ _ = _ ++ _ |- _ =>
          destruct (split_compare _ _ _ _ E)
            as [[Hu' Hv] | [(w & Hw & Hu' & Hv) | (w & Hw & Hu' & Hv)]]; clear E
      end.
      * exfalso. subst u2. rewrite Hv in Hm2. rewrite Hm in Hm2.
        injection Hm2 as _ Ht _. apply Hne2.
        apply (app_inv_tail t2 m2 []). simpl. congruence.
      * exfalso. subst u. rewrite Hv in Hm2. eapply unmatched_clash; eauto.
      * exfalso. subst u2. rewrite Hv in Hm. eapply unmatched_clash; eauto.
    + match goal with
      | E : _ ++ _ = _ ++ _ |- _ =>
          destruct (split_compare _ _ _ _ E)
            as [[Hu' Hv] | [(w & Hw & Hu' & Hv) | (w & Hw & Hu' & Hv)]]; clear E
      end.
      * subst u2 t2. rewrite Hm in Hm2. injection Hm2 as _ <-.
        f_equal. f_equal. now apply IH.
      * exfalso. subst u. rewrite Hv in Hm2. eapply unmatched_clash; eauto.
      * exfalso. subst u2. rewrite Hv in Hm. eapply unmatched_clash; eauto.
Qed.
End GlobalReplaceFacts.

(** More fuel than [re_sub] gives changes nothing. *)
Lemma sub_from_enough (r : regex) (repl : list titem) (fuel : nat) (s : str) :
2 * length s + 2 <= fuel -> sub_from fuel r repl None s false = re_sub r repl s.
Proof.
intros H. apply (global_replace_unique r repl None false s).
- now apply sub_from_global.
- apply re_sub_global.
Qed.

(** ** The switch-case pass *)

Lemma wrap_cases_cons (in_switch : bool) (line : str) (rest : list str) :
  wrap_cases in_switch (line :: rest)
  = line :: inserted in_switch line rest ++ wrap_cases (next_flag in_switch line) rest.
Proof.
  unfold inserted, wraps, next_flag, is_case, closes_switch, opens_switch.
  cbn [wrap_cases].
  destruct (contains (lit "switch") line && contains (lit "{") line);
    [destruct rest; reflexivity|].
  destruct (in_switch && contains (lit "}") line && negb (contains (lit "case") line));
    [destruct rest; reflexivity|].
  destruct (in_switch && startswith (lit "case") (strip line) && contains (lit ":") line);
    [|destruct rest; reflexivity].
  destruct rest as [|following rest]; [reflexivity|].
  unfold brace_line, indented.
  destruct (is_declaration (strip following)); reflexivity.
Qed.



Lemma declaration_nonempty (t : str) : is_declaration t = true -> t <> [].
Proof. intros H ->. discriminate. Qed.

Lemma declaration_inv (t : str) :
  is_declaration t = true ->
  exists t', t = lit "const " ++ t' \/ t = lit "let " ++ t' \/ t = lit "var " ++ t'.
Proof.
  unfold is_declaration, startswith_any. cbn [existsb]. intros H.
  apply orb_prop in H as [H|H]; [|apply orb_prop in H as [H|H];
    [|apply orb_prop in H as [H|H]; [|discriminate]]];
    apply startswith_inv in H as [t' ->]; exists t'; auto.
Qed.

Lemma declaration_not_case (t : str) :
  is_declaration t = true -> startswith (lit "case") t = false.
Proof.
  intros H. destruct (declaration_inv t H) as [t' [-> | [-> | ->]]]; reflexivity.
Qed.


Section Wrapped.
Variable following : str.
Hypothesis Hdecl : is_declaration (strip following) = true.

Lemma brace_line_shape :
  exists pre suf, following = pre ++ strip following ++ suf /\ spaces pre /\ spaces suf
                  /\ brace_line following = pre ++ lit "        {" ++ suf.
Proof. apply replace_stripped. now apply declaration_nonempty. Qed.









Lemma following_inert (s : bool) (rest : list str) :
  inserted s following rest = [].
Proof.
  unfold inserted, wraps, is_case.
  rewrite declaration_not_case by assumption.
  destruct rest; [reflexivity|]. simpl. now rewrite !andb_false_r.
Qed.

End Wrapped.

Lemma wraps_flag (s : bool) (line : str) (rest : list str) :
wraps s line rest = true -> next_flag s line = s.
Proof.
unfold wraps, next_flag. intros H.
apply andb_prop in H as [H _]. apply andb_prop in H as [H _].
apply andb_prop in H as [H1 H2].
apply negb_true_iff in H1, H2. now rewrite H1, H2.
Qed.


Lemma wrap_cases_no_lf (lines : list str) :
forall s, Forall no_lf lines -> Forall no_lf (wrap_cases s lines).
Proof.
induction lines as [|line rest IH]; intros s Hl; [constructor|].
rewrite wrap_cases_cons. inversion Hl as [|? ? Hline Hrest]; subst.
constructor; [assumption|]. apply Forall_app. split; [|now apply IH].
unfold inserted. destruct rest as [|following rest']; [constructor|].
destruct (wraps s line (following :: rest')) eqn:Hw; [|constructor].
assert (Hd : is_declaration (strip following) = true).
{ unfold wraps in Hw. now apply andb_prop in Hw as [_ Hw]. }
inversion Hrest as [|? ? Hf _]; subst.
destruct (brace_line_shape following Hd) as (pre & suf & Hs & _ & _ & ->).
assert (Hpre : no_lf pre).
{ intros H. apply Hf. rewrite Hs. apply in_or_app. now left. }
assert (Hsuf : no_lf suf).
{ intros H. apply Hf. rewrite Hs. apply in_or_app. right.
  apply in_or_app. now right. }
repeat constructor.
- repeat apply no_lf_app; try assumption.
  intros H. repeat (destruct H as [H|H]; [discriminate|]). exact H.
- unfold indented. apply no_lf_app; [|now apply no_lf_strip].
  intros H. repeat (destruct H as [H|H]; [discriminate|]). exact H.
Qed.

Lemma fix_case_declarations_lines (content : str) :
lines_of (fix_case_declarations content) = wrap_cases false (lines_of content).
Proof.
unfold fix_case_declarations. apply lines_of_unlines.
- pose proof (lines_of_nonempty content) as Hne.
  destruct (lines_of content); [congruence|].
  rewrite wrap_cases_cons. discriminate.
- apply wrap_cases_no_lf, lines_of_no_lf.
Qed.


(** ** The [} else {] repair *)

Lemma find_if_scan_back (lines : list str) (j : nat) :
  j < length lines -> find_if lines j = scan_back (rev (take (S j) lines)).
Proof.
  induction j as [|j IH]; intros Hj.
  - destruct lines as [|l lines]; [simpl in Hj; lia|]. simpl.
    now destruct (contains (lit "if (") l).
  - destruct (lookup_lt_is_Some_2 lines (S j) Hj) as [l Hl].
    rewrite (take_S_r _ _ _ Hl), rev_app_distr. cbn [rev app scan_back find_if].
    rewrite Hl. destruct (contains (lit "if (") l); [reflexivity|].
    apply IH. lia.
Qed.

Lemma malformed_else_after (lines : list str) (i : nat) (line : str) :
  i <= length lines ->
  malformed_else lines i line = malformed_after (rev (take i lines)) line.
Proof.
  intros Hi. unfold malformed_else, malformed_after.
  destruct (contains (lit "} else {") line); [|reflexivity].
  destruct i as [|i]; [reflexivity|].
  replace (0 <? S i) with true by (symmetry; apply Nat.ltb_lt; lia).
  replace (S i - 1) with i by lia. cbn [andb].
  destruct (lookup_lt_is_Some_2 lines i) as [prev Hprev]; [lia|].
  rewrite Hprev, (take_S_r _ _ _ Hprev), rev_app_distr. cbn [rev app].
  destruct (unterminated (strip prev)); [|reflexivity].
  destruct (mentions_nodes (strip prev)); [|reflexivity].
  rewrite find_if_scan_back by lia.
  now rewrite (take_S_r _ _ _ Hprev), rev_app_distr.
Qed.

Lemma repair_loop_spec (fuel : nat) (lines : list str) :
  forall i fixed_lines,
    length lines <= i + fuel ->
    repair_loop fuel lines i fixed_lines
    = fixed_lines ++ repair (rev (take i lines)) (drop i lines).
Proof.
  induction fuel as [|fuel IH]; intros i acc Hfuel.
  - rewrite drop_ge by lia. simpl. now rewrite app_nil_r.
  - cbn [repair_loop]. destruct (lines !! i) as [line|] eqn:Hline.
    + pose proof (lookup_lt_Some _ _ _ Hline) as Hi.
      rewrite (drop_S _ _ _ Hline). cbn [repair].
      rewrite <- malformed_else_after by lia.
      destruct (malformed_else lines i line) as [if_line|].
      * rewrite IH by lia. rewrite <- app_assoc. f_equal. f_equal.
        destruct (lines !! S i) as [skipped|] eqn:Hnext.
        -- rewrite (drop_S _ _ _ Hnext).
           replace (i + 2) with (S (S i)) by lia.
           rewrite (take_S_r _ _ _ Hnext), (take_S_r _ _ _ Hline).
           now rewrite !rev_app_distr.
        -- apply lookup_ge_None in Hnext.
           rewrite (drop_ge _ (S i)), (drop_ge _ (i + 2)) by lia. reflexivity.
      * rewrite IH by lia. rewrite <- app_assoc. cbn [app]. f_equal. f_equal.
        replace (i + 1) with (S i) by lia.
        now rewrite (take_S_r _ _ _ Hline), rev_app_distr.
    + apply lookup_ge_None in Hline. rewrite drop_ge by lia.
      simpl. now rewrite app_nil_r.
Qed.

(** The loop has fuel to spare with one unit per line, and more fuel
    changes nothing. *)
Lemma repair_else_spec (lines : list str) : repair_else lines = repair [] lines.
Proof. unfold repair_else. now rewrite repair_loop_spec by lia. Qed.

Lemma repair_loop_enough (fuel : nat) (lines : list str) :
  length lines <= fuel -> repair_loop fuel lines 0 [] = repair_else lines.
Proof. intros H. now rewrite repair_else_spec, repair_loop_spec by lia. Qed.

Lemma scan_back_some (p : list str) (l : str) :
  scan_back p = Some l -> In l p /\ contains (lit "if (") l = true.
Proof.
  induction p as [|x p IH]; [discriminate|]. cbn [scan_back In].
  destruct (contains (lit "if (") x) eqn:Hx.
  - intros [= ->]. auto.
  - intros H. destruct (IH H). auto.
Qed.

Lemma malformed_after_some (p : list str) (line l : str) :
  malformed_after p line = Some l ->
  contains (lit "} else {") line = true /\ scan_back p = Some l.
Proof.
  unfold malformed_after.
  destruct (contains (lit "} else {") line); [|discriminate].
  destruct p as [|prev p]; [discriminate|].
  destruct (unterminated (strip prev)); [|discriminate].
  destruct (mentions_nodes (strip prev)); [|discriminate].
  auto.
Qed.

Lemma malformed_after_plain (p : list str) (line : str) :
  contains (lit "} else {") line = false -> malformed_after p line = None.
Proof. unfold malformed_after. now intros ->. Qed.









Lemma no_lf_literal (s : string) :
  forallb (fun c => negb (Ascii.eqb c LF)) (lit s) = true -> no_lf (lit s).
Proof.
  intros H Hin. rewrite forallb_forall in H. specialize (H _ Hin).
  now rewrite Ascii.eqb_refl in H.
Qed.

Lemma repair_no_lf (lines : list str) :
  forall before,
    Forall no_lf before -> Forall no_lf lines -> Forall no_lf (repair before lines).
Proof.
  assert (Hgen : forall n lines before, length lines <= n ->
            Forall no_lf before -> Forall no_lf lines ->
            Forall no_lf (repair before lines)).
  { induction n as [|n IH]; intros ls before Hn Hb Hl.
    - destruct ls; [constructor | simpl in Hn; lia].
    - destruct ls as [|line rest]; [constructor|]. cbn [repair].
      inversion Hl as [|? ? Hline Hrest]; subst.
      destruct (malformed_after before line) as [if_line|] eqn:Hm.
      + destruct (malformed_after_some _ _ _ Hm) as [_ Hscan].
        destruct (scan_back_some _ _ Hscan) as [Hin _].
        apply Forall_app. split.
        * rewrite List.Forall_forall in Hb.
          repeat constructor; try (now apply no_lf_literal).
          apply no_lf_strip, Hb, Hin.
        * destruct rest as [|skipped rest']; [constructor|].
          inversion Hrest; subst. apply IH; [simpl in Hn; lia | | assumption].
          repeat constructor; assumption.
      + constructor; [assumption|]. apply IH; [simpl in Hn; lia | | assumption].
        now constructor. }
  intros before. now apply (Hgen (length lines)).
Qed.

Lemma malformed_after_first (line : str) : malformed_after [] line = None.
Proof. unfold malformed_after. now destruct (contains (lit "} else {") line). Qed.

Lemma repair_first (line : str) (rest : list str) :
  repair [] (line :: rest) = line :: repair [line] rest.
Proof. cbn [repair]. now rewrite malformed_after_first. Qed.

Lemma fix_flow_nodes_lines (content : str) :
  lines_of (fix_flow_nodes content) = repair_else (lines_of content).
Proof.
  unfold fix_flow_nodes. apply lines_of_unlines.
  - rewrite repair_else_spec. pose proof (lines_of_nonempty content) as Hne.
    destruct (lines_of content); [congruence | now rewrite repair_first].
  - rewrite repair_else_spec. apply repair_no_lf; [constructor | apply lines_of_no_lf].
Qed.


Lemma malformed_after_scan (before : list str) (line : str) :
  scan_back before = None -> malformed_after before line = None.
Proof.
  intros H. unfold malformed_after.
  destruct (contains (lit "} else {") line); [|reflexivity].
  destruct before as [|prev before]; [reflexivity|].
  destruct (unterminated (strip prev)); [|reflexivity].
  now destruct (mentions_nodes (strip prev)).
Qed.

Lemma repair_prefix (lines : list str) :
  forall before i,
    scan_back before = None ->
    i < length lines ->
    (forall l, In l (take i lines) -> contains (lit "if (") l = false) ->
    take (S i) (repair before lines) = take (S i) lines.
Proof.
  induction lines as [|line rest IH]; intros before i Hb Hi Hno; [simpl in Hi; lia|].
  cbn [repair]. rewrite (malformed_after_scan _ _ Hb). cbn [take firstn].
  f_equal. destruct i as [|i]; [reflexivity|].
  apply IH.
  - cbn [scan_back]. rewrite (Hno line) by (simpl; auto). exact Hb.
  - simpl in Hi. lia.
  - intros l Hl. apply Hno. simpl. auto.
Qed.

Lemma repair_without_if (lines : list str) :
  forall before,
    scan_back before = None ->
    (forall l, In l lines -> contains (lit "if (") l = false) ->
    repair before lines = lines.
Proof.
  induction lines as [|line rest IH]; intros before Hb Hno; [reflexivity|].
  cbn [repair]. rewrite (malformed_after_scan _ _ Hb). f_equal. apply IH.
  - cbn [scan_back]. rewrite (Hno line) by (simpl; auto). exact Hb.
  - intros l Hl. apply Hno. simpl. auto.
Qed.

Lemma repair_three (cond middle : str) :
  contains (lit "} else {") middle = false ->
  repair_else [cond; middle; lit "} else {"]
  = cond :: middle
    :: match malformed_after [middle; cond] (lit "} else {") with
       | Some if_line => fixed_section (strip if_line)
       | None => [lit "} else {"]
       end.
Proof.
  intros Hm. rewrite repair_else_spec, repair_first. cbn [repair].
  rewrite (malformed_after_plain _ _ Hm).
  destruct (malformed_after [middle; cond] (lit "} else {")); [|reflexivity].
  now rewrite app_nil_r.
Qed.

Lemma scan_back_none (before : list str) :
  (forall l, In l before -> contains (lit "if (") l = false) -> scan_back before = None.
Proof.
  induction before as [|l before IH]; intros H; [reflexivity|]. cbn [scan_back].
  rewrite (H l) by (simpl; auto). apply IH. intros l' Hl'. apply H. simpl; auto.
Qed.

(** One iteration on a line that is not repaired. *)
Lemma repair_loop_step (fuel : nat) (lines : list str) (i : nat) (line : str)
    (fixed_lines : list str) :
  lines !! i = Some line ->
  malformed_else lines i line = None ->
  repair_loop (S fuel) lines i fixed_lines
  = repair_loop fuel lines (i + 1) (fixed_lines ++ [line]).
Proof. intros Hline Hm. cbn [repair_loop]. now rewrite Hline, Hm. Qed.

Lemma repair_loop_pass (lines : list str) (i : nat) :
  i < length lines ->
  (forall l, In l (take i lines) -> contains (lit "if (") l = false) ->
  forall k fuel,
    k <= S i ->
    repair_loop (k + fuel) lines 0 [] = repair_loop fuel lines k (take k lines).
Proof.
  intros Hi Hno. induction k as [|k IH]; intros fuel Hk; [reflexivity|].
  replace (S k + fuel) with (k + S fuel) by lia.
  rewrite IH by lia.
  destruct (lookup_lt_is_Some_2 lines k) as [line Hline]; [lia|].
  rewrite (repair_loop_step _ _ _ line) by
    (try assumption; rewrite malformed_else_after by lia;
     apply malformed_after_scan, scan_back_none;
     intros l Hl; apply Hno; apply in_rev in Hl;
     rewrite <- (take_drop k (take i lines)), take_take;
     replace (k `min` i) with k by lia; apply in_or_app; now left).
  replace (k + 1) with (S k) by lia.
  now rewrite (take_S_r _ _ _ Hline).
Qed.

Lemma unlines_injective (ls1 ls2 : list str) :
  ls1 <> [] -> ls2 <> [] -> Forall no_lf ls1 -> Forall no_lf ls2 ->
  unlines ls1 = unlines ls2 -> ls1 = ls2.
Proof.
  intros H1 H2 F1 F2 E.
  rewrite <- (lines_of_unlines ls1), <- (lines_of_unlines ls2) by assumption.
  now rewrite E.
Qed.

(** ** The scripts in the world *)

Lemma differs_same (a : str) : differs a a = false.
Proof. unfold differs. now apply bool_decide_eq_false_2; intros H. Qed.

Lemma differs_true (a b : str) : a <> b -> differs a b = true.
Proof. intros H. unfold differs. now apply bool_decide_eq_true_2. Qed.

Lemma differs_false (a b : str) : a = b -> differs a b = false.
Proof. intros ->. apply differs_same. Qed.

Lemma path_exists_present (p content : str) (w : world) :
  files w !! p = Some content -> path_exists p w = Ret true w.
Proof.
  intros H. unfold path_exists. rewrite H.
  now rewrite bool_decide_eq_true_2 by eauto.
Qed.

Lemma path_exists_missing (p : str) (w : world) :
  files w !! p = None -> path_exists p w = Ret false w.
Proof.
  intros H. unfold path_exists. rewrite H.
  rewrite bool_decide_eq_false_2; [reflexivity|]. now intros [? ?].
Qed.

Lemma say_say (a b : list msg) (w : world) : say b (say a w) = say (a ++ b) w.
Proof. unfold say. cbn [files faults writes console]. now rewrite <- app_assoc. Qed.

Lemma read_file_present (p content : str) (w : world) :
  files w !! p = Some content -> read_file p w = Ret content w.
Proof. intros H. unfold read_file. now rewrite H. Qed.

Module TsFacts.

Lemma apply_patterns_app (rules1 rules2 : list rule) (content : str) :
  apply_patterns (rules1 ++ rules2) content
  = apply_patterns rules2 (apply_patterns rules1 content).
Proof.
  revert content. induction rules1 as [|[p t] rules1 IH]; intros content;
    [reflexivity | apply IH].
Qed.

Lemma fix_file_missing (file_path : str) (patterns : list rule) (w : world) :
  files w !! file_path = None -> fix_file file_path patterns w = Ret false w.
Proof.
  intros H. unfold fix_file, bind. now rewrite (path_exists_missing _ _ H).
Qed.

Lemma fix_file_unchanged (file_path content : str) (patterns : list rule) (w : world) :
  files w !! file_path = Some content ->
  apply_patterns patterns content = content ->
  fix_file file_path patterns w = Ret false w.
Proof.
  intros H Hsame. unfold fix_file, bind.
  rewrite (path_exists_present _ _ _ H). cbn [negb].
  rewrite (read_file_present _ _ _ H), Hsame. now rewrite differs_same.
Qed.

(** With a changed text [fix_file] goes on to write and to report. *)
Lemma fix_file_changed (file_path content : str) (patterns : list rule) (w : world) :
  files w !! file_path = Some content ->
  apply_patterns patterns content <> content ->
  fix_file file_path patterns w
  = (write_file file_path (apply_patterns patterns content) >>
     print (Fixed file_path) >> ret true) w.
Proof.
  intros H Hnew. unfold fix_file. unfold bind at 1.
  rewrite (path_exists_present _ _ _ H). cbn [negb]. unfold bind at 1.
  rewrite (read_file_present _ _ _ H). now rewrite differs_true.
Qed.

Lemma write_file_sound (p content : str) (w : world) :
  faults w !! p = None -> write_file p content w = Ret tt (store p content w).
Proof. intros H. unfold write_file. now rewrite H. Qed.

Lemma fix_file_written (file_path content : str) (patterns : list rule) (w : world) :
  files w !! file_path = Some content ->
  apply_patterns patterns content <> content ->
  faults w !! file_path = None ->
  fix_file file_path patterns w
  = Ret true (say [Fixed file_path]
                (store file_path (apply_patterns patterns content) w)).
Proof.
  intros H Hnew Hok. rewrite (fix_file_changed _ content) by assumption.
  unfold bind. now rewrite write_file_sound.
Qed.

(** [fix_file] creates no file, however it ends. *)
Lemma write_file_keeps_missing (p content : str) (w : world) :
  is_Some (files w !! p) ->
  forall q,
    files w !! q = None ->
    match write_file p content w with
    | Ret _ w' | Raise _ w' => files w' !! q = None /\ faults w' = faults w
    end.
Proof.
  intros [old Hp] q Hq. unfold write_file.
  assert (Hne : p <> q) by (intros ->; congruence).
  destruct (faults w !! p) as [[|written]|]; cbn [store files faults];
    rewrite ?lookup_insert_ne by assumption; auto.
Qed.

Lemma fix_file_keeps_missing (file_path : str) (patterns : list rule) (w : world) :
  forall q,
    files w !! q = None ->
    match fix_file file_path patterns w with
    | Ret _ w' | Raise _ w' => files w' !! q = None /\ faults w' = faults w
    end.
Proof.
  intros q Hq. destruct (files w !! file_path) as [content|] eqn:H.
  - destruct (decide (apply_patterns patterns content = content)) as [Hsame|Hnew].
    + rewrite (fix_file_unchanged _ content) by assumption. auto.
    + rewrite (fix_file_changed _ content) by assumption. unfold bind at 1.
      pose proof (write_file_keeps_missing file_path
                    (apply_patterns patterns content) w) as Hw.
      rewrite H in Hw. specialize (Hw (ex_intro _ _ eq_refl) q Hq).
      destruct (write_file file_path (apply_patterns patterns content) w);
        exact Hw.
  - rewrite fix_file_missing by assumption. auto.
Qed.

(** With no failing write planned, [fix_file] returns. *)
Lemma fix_file_returns (file_path : str) (patterns : list rule) (w : world) :
  faults w = ∅ ->
  exists fixed w', fix_file file_path patterns w = Ret fixed w' /\ faults w' = ∅.
Proof.
  intros Hok. destruct (files w !! file_path) as [content|] eqn:H.
  - destruct (decide (apply_patterns patterns content = content)) as [Hsame|Hnew].
    + exists false, w. split; [apply (fix_file_unchanged _ content); assumption | auto].
    + eexists true, _. split.
      * apply (fix_file_written _ content); try assumption.
        rewrite Hok. apply lookup_empty.
      * exact Hok.
  - exists false, w. split; [apply fix_file_missing; assumption | auto].
Qed.

Lemma apply_fixes_cons (file_path : str) (patterns : list rule)
    (fs : list (str * list rule)) (fixed_count : nat) (w : world) :
  apply_fixes ((file_path, patterns) :: fs) fixed_count w
  = match fix_file file_path patterns w with
    | Ret fixed w' => apply_fixes fs (if fixed then fixed_count + 1 else fixed_count) w'
    | Raise e w' => Raise e w'
    end.
Proof.
  cbn [apply_fixes]. unfold bind at 1, count_fixed, bind. cbn [fst snd].
  now destruct (fix_file file_path patterns w).
Qed.

(** No exception escapes the loop over [fixes] when no write fails. *)
Lemma apply_fixes_returns (fs : list (str * list rule)) :
  forall fixed_count w,
    faults w = ∅ ->
    exists n w', apply_fixes fs fixed_count w = Ret n w' /\ faults w' = ∅.
Proof.
  induction fs as [|[file_path patterns] fs IH]; intros n w Hok.
  - exists n, w. split; [reflexivity | auto].
  - rewrite apply_fixes_cons.
    destruct (fix_file_returns file_path patterns w Hok) as (fixed & w1 & -> & H1).
    apply IH. exact H1.
Qed.

(** A missing file leaves the run as it is without that entry. *)
Lemma apply_fixes_missing (fs1 fs2 : list (str * list rule)) (file_path : str)
    (patterns : list rule) :
  forall fixed_count w,
    files w !! file_path = None ->
    apply_fixes (fs1 ++ (file_path, patterns) :: fs2) fixed_count w
    = apply_fixes (fs1 ++ fs2) fixed_count w.
Proof.
  induction fs1 as [|[p1 pats1] fs1 IH]; intros n w Hw.
  - cbn [app]. rewrite apply_fixes_cons. now rewrite fix_file_missing.
  - cbn [app]. rewrite !apply_fixes_cons.
    pose proof (fix_file_keeps_missing p1 pats1 w file_path Hw) as Hk.
    destruct (fix_file p1 pats1 w) as [fixed w1|e w1]; [|reflexivity].
    apply IH. apply Hk.
Qed.

(** The passes of [main] that do not compare write whatever [f] returns. *)
Lemma rewrite_always_present (path content : str) (f : str -> str) (n : nat) (w : world) :
  files w !! path = Some content ->
  faults w !! path = None ->
  rewrite_always path f n w
  = Ret (n + 1) (say [Fixed path] (store path (f content) w)).
Proof.
  intros H Hok. unfold rewrite_always, bind.
  rewrite (path_exists_present _ _ _ H), (read_file_present _ _ _ H).
  now rewrite write_file_sound.
Qed.

End TsFacts.

Module ConstFacts.
Import ConstErrors.

Lemma when_skip (b : bool) (m : M unit) (w : world) :
  m w = Ret tt w -> when b m w = Ret tt w.
Proof. now destruct b. Qed.

Lemma add_declaration_skip (file_path content : str) (w : world) :
  contains (lit "expressionAttributeValues[") content = false
  \/ contains (lit "const expressionAttributeValues:") content = true
  \/ str_find marker content = None ->
  add_declaration file_path content w = Ret tt w.
Proof.
  unfold add_declaration, needs_declaration.
  intros [H | [H | H]]; rewrite H.
  - reflexivity.
  - now rewrite andb_false_r.
  - now destruct (_ && _).
Qed.

Lemma apply_fix_unchanged (fx : fix_entry) (content : str) (w : world) :
  files w !! file fx = Some content ->
  re_sub (search fx) (replace fx) content = content ->
  apply_fix fx w
  = (when (contains (lit "lab.ts") (file fx)) (add_declaration (file fx) content) >>
     when (contains (lit "flow-nodes.ts") (file fx)) (add_declaration (file fx) content))
      (say [Fixing (file fx); NoMatch (file fx)] w).
Proof.
  intros H Hsame. unfold apply_fix. unfold bind at 1.
  rewrite (path_exists_present _ _ _ H).
  unfold bind at 1. unfold print at 1. unfold bind at 1.
  unfold read_file. cbn [say files]. rewrite H, Hsame, differs_same.
  unfold bind at 1. unfold print at 1.
  now rewrite (say_say [Fixing (file fx)] [NoMatch (file fx)] w).
Qed.

Lemma apply_fix_guarded (fx : fix_entry) (content : str) (w : world) :
  files w !! file fx = Some content ->
  re_sub (search fx) (replace fx) content = content ->
  contains (lit "expressionAttributeValues[") content = false
  \/ contains (lit "const expressionAttributeValues:") content = true
  \/ str_find marker content = None ->
  apply_fix fx w = Ret tt (say [Fixing (file fx); NoMatch (file fx)] w).
Proof.
  intros H Hsame Hguard. rewrite (apply_fix_unchanged fx content) by assumption.
  unfold bind. rewrite when_skip by now apply add_declaration_skip.
  apply when_skip. now apply add_declaration_skip.
Qed.


End ConstFacts.

Module RegexFacts.
Import FixRegex.


(** Unescaping the slash twice is not unescaping it once. *)
Lemma fix_tenant_not_idempotent :
  fix_tenant (fix_tenant (lit "\\/")) <> fix_tenant (lit "\\/").
Proof. intros H. vm_compute in H. discriminate. Qed.

End RegexFacts.

(** * The claims *)



(** On a malformed block as the script expects it: five lines, the [if (]
    line apart from the [} else {] line. *)


(** C2 (the code departs from it): a file the transformation leaves as it
    is must not be written.  The switch-case pass of
    [final-typescript-fixes.py] and [fix-regex.py] write without comparing:
    on a handler without a [switch], and on a router without the escaped
    slash, the text is unchanged and the file is written, reported and
    counted all the same. *)
Theorem C2_unchanged_file_is_written :
  TypescriptFixes.fix_case_declarations plain_handler = plain_handler
  /\ TypescriptFixes.main untouched_world
     = Ret tt {| files := files untouched_world;
                 faults := ∅;
                 writes := [(TypescriptFixes.observatory_path, plain_handler)];
                 console := [Start; Fixed TypescriptFixes.observatory_path;
                             Completed; FilesFixed 1; NextStep] |}
  /\ FixRegex.main plain_router_world
     = Ret tt {| files := files plain_router_world;
                 faults := ∅;
                 writes := [(FixRegex.router_path, lit "router.get('/users')")];
                 console := [Start; Fixed FixRegex.router_path; Completed] |}.
Proof. repeat split; vm_compute; reflexivity. Qed.



(** On a text that does not use the values. *)

(** C4: when no line above index [i] holds [if (], the backward scan from
    any line up to [i] runs past the first line: each of the first [i + 1]
    iterations appends its line and moves on by one, so that the loop
    reaches index [i + 1] with exactly the first [i + 1] lines emitted, as
    they were; nothing is spliced and no line is skipped.  With no [if (] in
    the whole input the text is returned as it was. *)
Theorem C4_unresolved_context_passes_through (content : str) (i : nat) :
  i < length (lines_of content) ->
  (forall l, In l (take i (lines_of content)) -> contains (lit "if (") l = false) ->
  (forall fuel,
     repair_loop (S i + fuel) (lines_of content) 0 []
     = repair_loop fuel (lines_of content) (S i) (take (S i) (lines_of content)))
  /\ take (S i) (repair_else (lines_of content)) = take (S i) (lines_of content)
  /\ ((forall l, In l (lines_of content) -> contains (lit "if (") l = false) ->
      fix_flow_nodes content = content).
Proof.
  intros Hi Hno. split; [|split].
  - intros fuel. apply (repair_loop_pass _ i Hi Hno (S i) fuel). lia.
  - rewrite repair_else_spec. now apply repair_prefix.
  - intros Hall. unfold fix_flow_nodes.
    rewrite repair_else_spec, repair_without_if by auto.
    apply unlines_lines_of.
Qed.

(** On four lines without any [if (], up to the [} else {] line at index 2. *)

Lemma C4_unresolved_context_passes_through_witness :
  2 < length (lines_of (unlines orphan_else_lines))
  /\ (forall l, In l (take 2 (lines_of (unlines orphan_else_lines))) ->
        contains (lit "if (") l = false)
  /\ take 3 (repair_else (lines_of (unlines orphan_else_lines)))
     = take 3 (lines_of (unlines orphan_else_lines)).
Proof.
  assert (Hi : 2 < length (lines_of (unlines orphan_else_lines)))
    by (vm_compute; lia).
  assert (Hno : forall l, In l (take 2 (lines_of (unlines orphan_else_lines))) ->
                  contains (lit "if (") l = false).
  { intros l Hl. vm_compute in Hl.
    repeat (destruct Hl as [<-|Hl]; [vm_compute; reflexivity|]). destruct Hl. }
  split; [exact Hi|]. split; [exact Hno|].
  apply (proj1 (proj2 (C4_unresolved_context_passes_through _ 2 Hi Hno))).
Defined.

(** C5 (as stated, fails): on the three lines of scenario 3 the rule does
    not fire, because [const y = f()] mentions neither [const nodes] nor
    [nodes =]: the lines pass through and the text is unchanged. *)
Lemma C5_scenario_passes_through :
  repair_else scenario3_lines = scenario3_lines
  /\ fix_flow_nodes (unlines scenario3_lines) = unlines scenario3_lines
  /\ differs (fix_flow_nodes (unlines scenario3_lines)) (unlines scenario3_lines)
     = false.
Proof. repeat split; vm_compute; reflexivity. Qed.

(** C5 (amended): on three lines [cond], [middle], [} else {], where [cond]
    holds [if (] and [middle], once stripped, is not empty, ends with none of
    [;], [}], [{], and holds neither [if (] nor [} else {]: if [middle]
    mentions [const nodes] or [nodes =] the rule fires, the two lines are
    kept and the section of five lines (the stripped [cond], the two
    hard-coded branches around [} else {], the closing brace) replaces the
    [} else {] line, and the text changes; if it does not, the three lines
    pass through. *)
Theorem C5_repair_fires_on_nodes (cond middle : str) :
  contains (lit "if (") cond = true ->
  contains (lit "if (") middle = false ->
  contains (lit "} else {") middle = false ->
  unterminated (strip middle) = true ->
  ~ In LF cond -> ~ In LF middle ->
  (mentions_nodes (strip middle) = true ->
   repair_else [cond; middle; lit "} else {"]
   = [cond; middle; strip cond; template_branch; else_line; tenant_branch;
      closing_line]
   /\ differs (fix_flow_nodes (unlines [cond; middle; lit "} else {"]))
        (unlines [cond; middle; lit "} else {"]) = true)
  /\ (mentions_nodes (strip middle) = false ->
      repair_else [cond; middle; lit "} else {"] = [cond; middle; lit "} else {"]).
Proof.
  intros Hif Hmid Helse Hterm Hc Hm.
  assert (Hlines : Forall no_lf [cond; middle; lit "} else {"]).
  { repeat constructor; try assumption. now apply no_lf_literal. }
  split; intros Hnodes.
  - assert (Hrep : repair_else [cond; middle; lit "} else {"]
                   = [cond; middle; strip cond; template_branch; else_line;
                      tenant_branch; closing_line]).
    { rewrite repair_three by assumption.
      unfold malformed_after. cbn [scan_back].
      rewrite Hterm, Hnodes, Hmid, Hif. reflexivity. }
    split; [exact Hrep|].
    apply differs_true. unfold fix_flow_nodes.
    rewrite lines_of_unlines by (assumption || discriminate).
    rewrite Hrep. intros E.
    apply unlines_injective in E; try discriminate; try assumption.
    repeat constructor; try assumption; try (now apply no_lf_literal).
    now apply no_lf_strip.
  - rewrite repair_three by assumption.
    unfold malformed_after. rewrite Hterm, Hnodes. reflexivity.
Qed.

(** On scenario 3 with [nodes] for [y]. *)

Lemma C5_repair_fires_on_nodes_witness :
  repair_else [lit "if (x) {"; lit "const nodes = f()"; lit "} else {"]
  = [lit "if (x) {"; lit "const nodes = f()"; lit "if (x) {"; template_branch;
     else_line; tenant_branch; closing_line].
Proof.
  refine (proj1 (proj1 (C5_repair_fires_on_nodes (lit "if (x) {")
                          (lit "const nodes = f()") _ _ _ _ _ _) _)).
  - reflexivity.
  - reflexivity.
  - reflexivity.
  - reflexivity.
  - apply no_lf_literal. reflexivity.
  - apply no_lf_literal. reflexivity.
  - reflexivity.
Defined.

(** C6 (the code departs from it): a missing file must not stop the run.
    [fix-regex.py] opens [router.ts] without testing that it exists: with
    [router.ts] missing the script ends in [FileNotFoundError] after its
    banner, and [tenant.ts], which is there, is never processed. *)
Theorem C6_missing_router_aborts :
  FixRegex.main no_router_world
  = Raise (FileNotFoundError FixRegex.router_path)
      (say [Start] no_router_world)
  /\ files no_router_world !! FixRegex.tenant_path = Some (lit "path.split(/\//)")
  /\ FixRegex.fix_tenant (lit "path.split(/\//)") = lit "path.split(///)".
Proof. repeat split; vm_compute; reflexivity. Qed.

(** C7: [fix_file] applies its patterns in the order of the list, each to
    the text the one before it produced, and so do the three substitutions
    of the const pass; a substitution is the global replacement: its result
    is the one text the declarative replacement of every leftmost,
    non-overlapping match allows. *)
Theorem C7_rules_in_order_each_global :
  (forall (rules1 rules2 : list rule) (pattern : regex) (replacement : list titem)
          (content : str),
      apply_patterns (rules1 ++ (pattern, replacement) :: rules2) content
      = apply_patterns rules2
          (re_sub pattern replacement (apply_patterns rules1 content)))
  /\ (forall content : str,
        fix_const_content content
        = re_sub (fst completed_runs) (snd completed_runs)
            (re_sub (fst total_duration) (snd total_duration)
               (re_sub (fst filter_expression) (snd filter_expression) content)))
  /\ (forall (pattern : regex) (replacement : list titem) (s out : str),
        global_replace pattern replacement None false s out
        <-> out = re_sub pattern replacement s).
Proof.
  split; [|split].
  - intros rules1 rules2 pattern replacement content.
    now rewrite TsFacts.apply_patterns_app.
  - reflexivity.
  - intros pattern replacement s out. split.
    + intros H. eapply global_replace_unique; [exact H | apply re_sub_global].
    + intros ->. apply re_sub_global.
Qed.

(** Two declarations of [totalDuration] are replaced, the one of [total] is
    not. *)

Lemma C7_rules_in_order_each_global_witness :
  global_replace (fst total_duration) (snd total_duration) None false
    (lit "const totalDuration = 0; const  totalDuration=0; const total = 0;")
    (lit "let totalDuration = 0; let totalDuration = 0; const total = 0;").
Proof.
  apply (proj2 (proj2 C7_rules_in_order_each_global)).
  vm_compute. reflexivity.
Defined.

(** On a [lab.ts] that is the declaration and nothing else. *)

(** C8: the fallback of [fix_const_errors] is guarded by the whole text:
    when the values are not used, or their declaration is already there, or
    the marker comment is absent, nothing is written; an entry whose
    search/replace left the text as it was then leaves the file as it was. *)
Theorem C8_false_guard_skips_rule (w : world) (file_path content : str) :
  contains (lit "expressionAttributeValues[") content = false
  \/ contains (lit "const expressionAttributeValues:") content = true
  \/ str_find ConstErrors.marker content = None ->
  ConstErrors.add_declaration file_path content w = Ret tt w
  /\ forall fx,
       ConstErrors.file fx = file_path ->
       files w !! file_path = Some content ->
       re_sub (ConstErrors.search fx) (ConstErrors.replace fx) content = content ->
       ConstErrors.apply_fix fx w
       = Ret tt (say [Fixing file_path; NoMatch file_path] w).
Proof.
  intros Hguard. split.
  - now apply ConstFacts.add_declaration_skip.
  - intros fx <- H Hsame. now apply (ConstFacts.apply_fix_guarded fx content).
Qed.

Lemma C8_false_guard_skips_rule_witness :
  ConstErrors.add_declaration (lit "src/lib/api/lab.ts") (lit "let total = 0;")
    (World {[ lit "src/lib/api/lab.ts" := lit "let total = 0;" ]} ∅ [] [])
  = Ret tt (World {[ lit "src/lib/api/lab.ts" := lit "let total = 0;" ]} ∅ [] []).
Proof.
  refine (proj1 (C8_false_guard_skips_rule _ _ (lit "let total = 0;") _)).
  left. reflexivity.
Defined.

(** C9 (as stated, fails): the write of [api.ts] fails after the file has
    been opened, and so truncated: the run ends in [OSError] and the file
    is left with the first twelve characters of the final text, which is
    neither the text it had nor the final text. *)
Lemma C9_failed_write_leaves_prefix :
  TypescriptFixes.main failing_write_world
  = Raise (OSError api_path)
      (store api_path (lit "let data: un") (say [Start] failing_write_world))
  /\ files failing_write_world !! api_path = Some (lit "let data: any;")
  /\ apply_patterns
       ([ (typed_any "data", plain "data: unknown");
          (typed_any "error", plain "error: Error | unknown") ] ++ common_patterns)
       (lit "let data: any;")
     = lit "let data: unknown;".
Proof. repeat split; vm_compute; reflexivity. Qed.

(** C9 (amended): a changed text is written in place.  With no failure the
    complete final text is stored and the change reported; if [open(p, 'w')]
    fails the world is as it was; if the failure comes once the file is
    open, the file holds the part of the final text written so far and
    nothing of the text it had.  Either failure escapes as [OSError]; no
    other file is touched.  The same holds of the const pass of
    [final-build-fixes.py]. *)
Theorem C9_write_is_in_place (w : world) (file_path content : str)
    (patterns : list rule) :
  files w !! file_path = Some content ->
  (apply_patterns patterns content <> content ->
   fix_file file_path patterns w
   = match faults w !! file_path with
     | None =>
         Ret true (say [Fixed file_path]
                     (store file_path (apply_patterns patterns content) w))
     | Some AtOpen => Raise (OSError file_path) w
     | Some (AtWrite written) =>
         Raise (OSError file_path)
           (store file_path (take written (apply_patterns patterns content)) w)
     end)
  /\ (fix_const_content content <> content ->
      fix_const_file file_path w
      = match faults w !! file_path with
        | None =>
            Ret tt (say [Fixed file_path]
                      (store file_path (fix_const_content content) w))
        | Some AtOpen => Raise (OSError file_path) w
        | Some (AtWrite written) =>
            Raise (OSError file_path)
              (store file_path (take written (fix_const_content content)) w)
        end).
Proof.
  intros H. split; intros Hnew.
  - rewrite (TsFacts.fix_file_changed _ content) by assumption.
    unfold bind, write_file.
    now destruct (faults w !! file_path) as [[|written]|].
  - unfold fix_const_file. unfold bind at 1.
    rewrite (path_exists_present _ _ _ H). cbn [when]. unfold bind at 1.
    rewrite (read_file_present _ _ _ H), differs_true by assumption.
    cbn [when]. unfold bind, write_file.
    now destruct (faults w !! file_path) as [[|written]|].
Qed.

(** On the world whose write to [api.ts] fails after twelve characters. *)

Lemma C9_write_is_in_place_witness :
  fix_file api_path
    ([ (typed_any "data", plain "data: unknown");
       (typed_any "error", plain "error: Error | unknown") ] ++ common_patterns)
    failing_write_world
  = Raise (OSError api_path) (store api_path (lit "let data: un") failing_write_world).
Proof.
  refine (proj1 (C9_write_is_in_place failing_write_world api_path
                   (lit "let data: any;") _ _) _).
  - reflexivity.
  - intros H. vm_compute in H. discriminate.
Defined.

(** C10 (as stated, fails): a [case] line that itself holds [switch] and
    [{] is taken for the opening of a switch; the declaration below it is
    not wrapped and is emitted once. *)
Lemma C10_case_line_taken_for_switch :
  wrap_cases false switch_case_lines = switch_case_lines
  /\ next_flag false (lit "switch (kind) {") = true
  /\ startswith (lit "case") (strip (lit "  case 'switch': {")) = true
  /\ contains (lit ":") (lit "  case 'switch': {") = true
  /\ is_declaration (strip (lit "    const a = 1;")) = true.
Proof. repeat split; vm_compute; reflexivity. Qed.

(** C10 (amended): with the flag [in_switch] set, a line that starts with
    [case], holds [:] and does not hold both [switch] and [{], followed by a
    declaration line, is emitted followed by three lines: the declaration
    line with its text replaced by eight blanks and [{], the declaration
    re-indented by eight blanks, and the declaration line as it was.  The
    loop then goes on with the lines after the declaration: no closing [}]
    is emitted. *)
Theorem C10_case_declaration_emitted_twice (line following : str) (rest : list str) :
  contains (lit "switch") line && contains (lit "{") line = false ->
  startswith (lit "case") (strip line) = true ->
  contains (lit ":") line = true ->
  is_declaration (strip following) = true ->
  wrap_cases true (line :: following :: rest)
  = line :: str_replace (strip following) (lit "        {") following
         :: (lit "        " ++ strip following)
         :: wrap_cases true (following :: rest)
  /\ (exists in_switch,
        wrap_cases true (following :: rest) = following :: wrap_cases in_switch rest)
  /\ (exists pre suf,
        following = pre ++ strip following ++ suf
        /\ Forall (fun c => isspace c = true) pre
        /\ Forall (fun c => isspace c = true) suf
        /\ str_replace (strip following) (lit "        {") following
           = pre ++ lit "        {" ++ suf).
Proof.
  intros Hopen Hcase Hcolon Hdecl.
  assert (Hc : contains (lit "case") line = true).
  { rewrite <- contains_strip by reflexivity.
    apply startswith_inv in Hcase as [t ->]. apply (contains_intro _ []). }
  assert (Hw : wraps true line (following :: rest) = true).
  { unfold wraps, opens_switch, closes_switch, is_case.
    rewrite Hopen, Hc, Hcase, Hcolon, Hdecl. cbn. now rewrite andb_false_r. }
  split; [|split].
  - rewrite wrap_cases_cons. unfold inserted.
    now rewrite Hw, (wraps_flag _ _ _ Hw).
  - exists (next_flag true following).
    rewrite wrap_cases_cons. now rewrite following_inert.
  - apply (brace_line_shape following Hdecl).
Qed.

(** On [case 1:] followed by an indented declaration with a trailing blank. *)

Lemma C10_case_declaration_emitted_twice_witness :
  wrap_cases true case_lines
  = lit "  case 1:" :: lit "            { " :: lit "        const a = f();"
      :: wrap_cases true (tl case_lines).
Proof.
  exact (proj1 (C10_case_declaration_emitted_twice (lit "  case 1:")
                  (lit "    const a = f(); ") [lit "    break;"]
                  eq_refl eq_refl eq_refl eq_refl)).
Defined.

(** * Further properties of the scripts *)

(** ** Runs confined to the target files *)















Module TsRuns.
Import TypescriptFixes.





End TsRuns.


Module BuildRuns.
Import BuildFixes.




End BuildRuns.

Module ConstRuns.
Import ConstErrors.




End ConstRuns.

Module RegexRuns.
Import FixRegex.


End RegexRuns.


(** ** Every write is reported *)

Module TsTrace.
Import TypescriptFixes.

Lemma fix_file_trace (file_path : str) (patterns : list rule) (w : world) :
  faults w = ∅ ->
  exists fixed ws w',
    fix_file file_path patterns w = Ret fixed w'
    /\ faults w' = ∅
    /\ writes w' = writes w ++ ws
    /\ console w' = console w ++ reports ws
    /\ length ws = (if fixed then 1 else 0).
Proof.
  intros Hok. destruct (files w !! file_path) as [content|] eqn:H.
  - destruct (decide (apply_patterns patterns content = content)) as [Hsame|Hnew].
    + exists false, [], w. rewrite (TsFacts.fix_file_unchanged _ content) by assumption.
      cbn [reports map]. now rewrite !app_nil_r.
    + exists true, [(file_path, apply_patterns patterns content)].
      eexists. split.
      * apply (TsFacts.fix_file_written _ content); try assumption.
        rewrite Hok. apply lookup_empty.
      * cbn [say store faults writes console reports map fst length]. auto.
  - exists false, [], w. rewrite TsFacts.fix_file_missing by assumption.
    cbn [reports map]. now rewrite !app_nil_r.
Qed.

Lemma apply_fixes_trace (fs : list (str * list rule)) :
  forall fixed_count w,
    faults w = ∅ ->
    exists ws w',
      apply_fixes fs fixed_count w = Ret (fixed_count + length ws) w'
      /\ faults w' = ∅
      /\ writes w' = writes w ++ ws
      /\ console w' = console w ++ reports ws
      /\ length ws <= length fs.
Proof.
  induction fs as [|[file_path patterns] fs IH]; intros n w Hok.
  - exists [], w. cbn [apply_fixes reports map length]. unfold ret.
    rewrite Nat.add_0_r, !app_nil_r. repeat split; auto.
  - rewrite TsFacts.apply_fixes_cons.
    destruct (fix_file_trace file_path patterns w Hok)
      as (fixed & ws1 & w1 & -> & Hok1 & Hw1 & Hc1 & Hn1).
    destruct (IH (if fixed then n + 1 else n) w1 Hok1)
      as (ws2 & w2 & -> & Hok2 & Hw2 & Hc2 & Hn2).
    exists (ws1 ++ ws2), w2. unfold reports in *.
    rewrite Hw2, Hw1, Hc2, Hc1, map_app, !length_app, <- !app_assoc. cbn [length].
    repeat split; try assumption; destruct fixed; try lia; f_equal; lia.
Qed.

Lemma rewrite_always_trace (path : str) (f : str -> str) (n : nat) (w : world) :
  faults w = ∅ ->
  exists ws w',
    rewrite_always path f n w = Ret (n + length ws) w'
    /\ faults w' = ∅
    /\ writes w' = writes w ++ ws
    /\ console w' = console w ++ reports ws
    /\ length ws <= 1.
Proof.
  intros Hok. destruct (files w !! path) as [content|] eqn:H.
  - exists [(path, f content)]. eexists. split.
    + apply (TsFacts.rewrite_always_present _ content); [assumption|].
      rewrite Hok. apply lookup_empty.
    + cbn [say store faults writes console length reports map fst]. auto.
  - exists [], w. unfold rewrite_always, bind.
    rewrite (path_exists_missing _ _ H). cbn [reports map length]. unfold ret.
    rewrite Nat.add_0_r, !app_nil_r. repeat split; auto.
Qed.

End TsTrace.

(** ** Where a run can leave the tree *)





(** ** What the run reports *)

(** X5: With no failing write, [final-typescript-fixes.py] prints one line
    "Fixed: p" for every write it makes, in the order of the writes, between
    its banner and its summary, and the number it reports as "Files fixed"
    is the number of writes of the run: at most twelve. *)
Theorem X5_ts_run_reports_every_write (w : world) :
  faults w = ∅ ->
  exists ws w',
    TypescriptFixes.main w = Ret tt w'
    /\ writes w' = writes w ++ ws
    /\ console w'
       = console w ++ [Start] ++ reports ws
         ++ [Completed; FilesFixed (length ws); NextStep]
    /\ length ws <= 12.
Proof.
  intros Hok. unfold TypescriptFixes.main.
  unfold bind at 1, print at 1.
  destruct (TsTrace.apply_fixes_trace TypescriptFixes.fixes 0 (say [Start] w) Hok)
    as (ws1 & w1 & E1 & Hok1 & Hw1 & Hc1 & Hn1).
  unfold bind at 1. rewrite E1.
  destruct (TsTrace.rewrite_always_trace agent_types_path
              TypescriptFixes.fix_agent_types (0 + length ws1) w1 Hok1)
    as (ws2 & w2 & E2 & Hok2 & Hw2 & Hc2 & Hn2).
  unfold bind at 1. rewrite E2.
  destruct (TsTrace.rewrite_always_trace observatory_path
              TypescriptFixes.fix_case_declarations (0 + length ws1 + length ws2) w2 Hok2)
    as (ws3 & w3 & E3 & Hok3 & Hw3 & Hc3 & Hn3).
  unfold bind at 1. rewrite E3.
  exists (ws1 ++ ws2 ++ ws3). eexists. split; [reflexivity|].
  cbn [say writes console]. rewrite Hw3, Hw2, Hw1, Hc3, Hc2, Hc1.
  cbn [say writes console]. unfold reports. rewrite !map_app, !length_app.
  change (length TypescriptFixes.fixes) with 10 in Hn1.
  repeat split.
  - now rewrite <- !app_assoc.
  - rewrite <- !app_assoc. cbn [app]. do 6 f_equal.
    f_equal. f_equal. lia.
  - lia.
Qed.

(** X5: on a tree with [api.ts] to fix and a handler to wrap. *)
Lemma X5_ts_run_reports_every_write_witness :
  exists ws w',
    TypescriptFixes.main Examples.two_files_world = Ret tt w'
    /\ writes w' = writes Examples.two_files_world ++ ws
    /\ console w'
       = console Examples.two_files_world ++ [Start] ++ reports ws
         ++ [Completed; FilesFixed (length ws); NextStep]
    /\ length ws <= 12.
Proof. apply (X5_ts_run_reports_every_write Examples.two_files_world). reflexivity. Defined.

(** ** Literal replacement *)

Lemma replace_from_miss (old new : str) (c : ascii) (s : str) :
  startswith old (c :: s) = false ->
  replace_from old new 0 (c :: s) = c :: replace_from old new 0 s.
Proof. intros H. cbn [replace_from]. now rewrite H. Qed.

(** Strong induction on the length of the text: a text is empty, starts
    with [old], or starts with a character that is copied. *)
Lemma replace_from_ind (old : str) (P : str -> Prop) :
  old <> [] ->
  P [] ->
  (forall t, P t -> P (old ++ t)) ->
  (forall c s, startswith old (c :: s) = false -> P s -> P (c :: s)) ->
  forall s, P s.
Proof.
  intros Hne Hnil Hhit Hmiss s.
  remember (length s) as n eqn:Hn. revert s Hn.
  induction n as [n IH] using lt_wf_ind. intros s Hn.
  destruct s as [|c s]; [exact Hnil|].
  destruct (startswith old (c :: s)) eqn:E.
  - apply startswith_inv in E as [t E]. rewrite E. apply Hhit.
    apply (IH (length t)); [|reflexivity].
    rewrite Hn, E, length_app. destruct old; [congruence | simpl; lia].
  - apply Hmiss; [exact E|]. apply (IH (length s)); [|reflexivity].
    rewrite Hn. simpl. lia.
Qed.

(** What the result starts with, the text started with: as long as the
    characters looked for are not the one [new] starts with. *)
Lemma replace_from_reflects (old new' : str) (h : ascii) (q : str) :
  old <> [] ->
  ~ In h q ->
  forall s,
    startswith q (replace_from old (h :: new') 0 s) = true -> startswith q s = true.
Proof.
  intros Hne. induction q as [|a q IH]; intros Hq s H; [reflexivity|].
  destruct s as [|c s]; [exact H|].
  destruct (startswith old (c :: s)) eqn:E.
  - apply startswith_inv in E as [t E]. rewrite E in H.
    rewrite replace_from_hit in H by assumption.
    cbn [app startswith] in H. apply andb_prop in H as [H _].
    apply Ascii.eqb_eq in H. exfalso. apply Hq. now left.
  - rewrite replace_from_miss in H by assumption.
    cbn [startswith] in *. apply andb_prop in H as [-> H]. cbn [andb].
    apply IH; [|exact H]. intros Hin. apply Hq. now right.
Qed.

(** Replacing [old] by [new] commutes with any way of erasing characters
    that sends [old] and [new] to the same text. *)
Lemma replace_from_filter (keep : ascii -> bool) (old new : str) :
  old <> [] ->
  List.filter keep new = List.filter keep old ->
  forall s, List.filter keep (replace_from old new 0 s) = List.filter keep s.
Proof.
  intros Hne Hsame. apply (replace_from_ind old); try assumption.
  - reflexivity.
  - intros t IH. rewrite replace_from_hit by assumption.
    rewrite !List.filter_app. now rewrite IH, Hsame.
  - intros c s Hmiss IH. rewrite replace_from_miss by assumption.
    cbn [List.filter]. now rewrite IH.
Qed.

Lemma replace_from_sublist (old new : str) :
  old <> [] ->
  sublist new old ->
  forall s, sublist (replace_from old new 0 s) s.
Proof.
  intros Hne Hsub. apply (replace_from_ind old); try assumption.
  - constructor.
  - intros t IH. rewrite replace_from_hit by assumption.
    now apply sublist_app.
  - intros c s Hmiss IH. rewrite replace_from_miss by assumption.
    now apply sublist_skip.
Qed.

(** A copied character starts no occurrence in the result that it did not
    start in the text. *)
Lemma copied_start (h : ascii) (q : str) (c : ascii) (s out : str) :
  startswith (h :: q) (c :: s) = false ->
  (startswith q out = true -> startswith q s = true) ->
  startswith (h :: q) (c :: out) = false.
Proof.
  intros Hmiss Hout. cbn [startswith] in *.
  destruct (Ascii.eqb h c); cbn [andb] in *; [|reflexivity].
  destruct (startswith q out); [|reflexivity].
  rewrite Hout in Hmiss by reflexivity. discriminate.
Qed.

Module RouterFacts.
Import FixRegex.

Lemma escaped_plus : lit "[^\/]+" = escaped ++ lit "+".
Proof. reflexivity. Qed.

Lemma unescaped_plus : lit "[^/]+" = unescaped ++ lit "+".
Proof. reflexivity. Qed.

(** The replacement text holds no occurrence of the text replaced, and
    none starts in it. *)
Lemma replace_unescaped (x : str) :
  replace_from escaped unescaped 0 (unescaped ++ x)
  = unescaped ++ replace_from escaped unescaped 0 x.
Proof. reflexivity. Qed.

Lemma replace_plus (x : str) :
  replace_from escaped unescaped 0 (lit "+" ++ x)
  = lit "+" ++ replace_from escaped unescaped 0 x.
Proof. reflexivity. Qed.

Lemma replace_escaped_plus (x : str) :
  replace_from (escaped ++ lit "+") (unescaped ++ lit "+") 0 (escaped ++ x)
  = if startswith (lit "+") x
    then unescaped ++ lit "+" ++ replace_from (escaped ++ lit "+") (unescaped ++ lit "+") 0
                                   (drop 1 x)
    else escaped ++ replace_from (escaped ++ lit "+") (unescaped ++ lit "+") 0 x.
Proof.
  destruct x as [|c x]; [reflexivity|].
  cbn [startswith lit list_ascii_of_string].
  destruct (Ascii.eqb_spec "+" c) as [<-|Hc]; cbn [andb].
  - reflexivity.
  - unfold escaped, unescaped.
    cbn [lit list_ascii_of_string app replace_from startswith length Nat.sub].
    apply Ascii.eqb_neq in Hc. rewrite Hc. reflexivity.
Qed.

(** The first of the two replacements of [fix_router] is subsumed by the
    second. *)
Lemma fix_router_once (content : str) :
  fix_router content = replace_from escaped unescaped 0 content.
Proof.
  unfold fix_router.
  change (replace_from escaped unescaped 0
            (replace_from (escaped ++ lit "+") (unescaped ++ lit "+") 0 content)
          = replace_from escaped unescaped 0 content).
  revert content. apply (replace_from_ind escaped); [discriminate | reflexivity | |].
  - intros t IH. rewrite replace_escaped_plus.
    rewrite (replace_from_hit escaped) by discriminate.
    destruct (startswith (lit "+") t) eqn:Ep.
    + apply startswith_inv in Ep as [t' ->].
      change (drop 1 (lit "+" ++ t')) with t'.
      rewrite (replace_from_miss _ _ "+"%char t') in IH by reflexivity.
      change ("+"%char :: ?x) with (lit "+" ++ x) in IH.
      rewrite !replace_plus in IH. apply app_inv_head in IH.
      now rewrite replace_unescaped, !replace_plus, IH.
    + rewrite (replace_from_hit escaped) by discriminate. now rewrite IH.
  - intros c s Hmiss IH.
    assert (Hplus : startswith (escaped ++ lit "+") (c :: s) = false).
    { destruct (startswith (escaped ++ lit "+") (c :: s)) eqn:E; [|reflexivity].
      apply startswith_inv in E as [t E]. rewrite E, <- app_assoc in Hmiss.
      now rewrite startswith_app in Hmiss. }
    rewrite (replace_from_miss _ _ c s Hplus).
    rewrite (replace_from_miss escaped unescaped c s Hmiss).
    rewrite (replace_from_miss escaped unescaped c); [now rewrite IH|].
    apply (copied_start "["%char (lit "^\/]") c s); [exact Hmiss|].
    apply (replace_from_reflects (escaped ++ lit "+") (lit "^/]+") "["%char);
      [discriminate|].
    cbn. intros [H|[H|[H|[H|[]]]]]; discriminate.
Qed.

Lemma replace_escaped_twice (content : str) :
  replace_from escaped unescaped 0 (replace_from escaped unescaped 0 content)
  = replace_from escaped unescaped 0 content.
Proof.
  revert content. apply (replace_from_ind escaped); [discriminate | reflexivity | |].
  - intros t IH. rewrite (replace_from_hit escaped) by discriminate.
    now rewrite replace_unescaped, IH.
  - intros c s Hmiss IH. rewrite (replace_from_miss _ _ c s Hmiss).
    rewrite (replace_from_miss escaped unescaped c); [now rewrite IH|].
    apply (copied_start "["%char (lit "^\/]") c s); [exact Hmiss|].
    apply (replace_from_reflects escaped (lit "^/]") "["%char); [discriminate|].
    cbn. intros [H|[H|[H|[H|[]]]]]; discriminate.
Qed.

End RouterFacts.

(** ** The literal replacements of [fix-regex.py] *)

(** X6: The first of the two replacements in [router.ts] does nothing that the
    second would not do: on every text, replacing [[^\/]+] by [[^/]+] and
    then [[^\/]] by [[^/]] gives what the second replacement alone gives. *)
Theorem X6_router_first_replacement_is_redundant (content : str) :
  FixRegex.fix_router content = str_replace (lit "[^\/]") (lit "[^/]") content.
Proof.
  rewrite RouterFacts.fix_router_once. reflexivity.
Qed.

(** X7: The rewriting of [router.ts] reaches a fixed point in one run, on every
    text: the class it writes, [[^/]], holds no escaped slash.  (That of
    [tenant.ts] does not: see [RegexFacts.fix_tenant_not_idempotent].) *)
Theorem X7_router_fix_is_idempotent (content : str) :
  FixRegex.fix_router (FixRegex.fix_router content) = FixRegex.fix_router content.
Proof.
  rewrite !RouterFacts.fix_router_once. apply RouterFacts.replace_escaped_twice.
Qed.

(** X8: Both rewritings of [fix-regex.py] delete backslashes and do nothing
    else: the result is the text with some of its characters left out, and
    the two are the same text once their backslashes are removed. *)
Theorem X8_regex_fixes_only_delete_backslashes (content : str) :
  (sublist (FixRegex.fix_router content) content
   /\ without_backslashes (FixRegex.fix_router content) = without_backslashes content)
  /\ (sublist (FixRegex.fix_tenant content) content
      /\ without_backslashes (FixRegex.fix_tenant content)
         = without_backslashes content).
Proof.
  split; split.
  - rewrite RouterFacts.fix_router_once.
    apply replace_from_sublist; [discriminate|].
    unfold unescaped, escaped. cbn [lit list_ascii_of_string].
    do 2 apply sublist_skip. apply sublist_cons. now do 2 apply sublist_skip.
  - rewrite RouterFacts.fix_router_once. unfold without_backslashes.
    apply replace_from_filter; [discriminate | reflexivity].
  - unfold FixRegex.fix_tenant, str_replace. cbn [lit list_ascii_of_string].
    apply replace_from_sublist; [discriminate|].
    apply sublist_cons. now apply sublist_skip.
  - unfold FixRegex.fix_tenant, str_replace, without_backslashes.
    cbn [lit list_ascii_of_string].
    apply replace_from_filter; [discriminate | reflexivity].
Qed.

(** ** The fallback of [fix_const_errors] *)

Lemma str_find_some (p s : str) (n : nat) :
  str_find p s = Some n ->
  exists pre post, s = pre ++ p ++ post /\ length pre = n /\ take n s = pre.
Proof.
  revert n. induction s as [|c s IH]; intros n; cbn [str_find].
  - destruct (startswith p []) eqn:E; [|discriminate].
    intros [= <-]. apply startswith_inv in E as [t E]. exists [], t. auto.
  - destruct (startswith p (c :: s)) eqn:E.
    + intros [= <-]. apply startswith_inv in E as [t E]. exists [], t. auto.
    + destruct (str_find p s) as [k|]; [|discriminate].
      intros [= <-]. destruct (IH k eq_refl) as (pre & post & -> & <- & Ht).
      exists (c :: pre), post. cbn [app length take firstn]. repeat split.
      f_equal. exact Ht.
Qed.

(** [find] returns the first occurrence. *)
Lemma str_find_first (p s : str) (n : nat) :
  str_find p s = Some n ->
  forall pre post, s = pre ++ p ++ post -> n <= length pre.
Proof.
  revert n. induction s as [|c s IH]; intros n; cbn [str_find].
  - destruct (startswith p []); [|discriminate]. intros [= <-]. lia.
  - destruct (startswith p (c :: s)) eqn:E; [intros [= <-]; lia|].
    destruct (str_find p s) as [k|]; [|discriminate].
    intros [= <-] pre post Hs. destruct pre as [|a pre].
    + cbn [app] in Hs. rewrite Hs, startswith_app in E. discriminate.
    + cbn [app] in Hs. injection Hs as _ Hs. cbn [length].
      apply le_n_S. now apply (IH k eq_refl pre post).
Qed.

Module FallbackFacts.
Import ConstErrors.

(** [len('\n'.join(content[:search_pos].split('\n')))] is [search_pos]. *)
Lemma insert_pos_is_search_pos (content : str) (search_pos : nat) :
  search_pos <= length content ->
  length (unlines (lines_of (take search_pos content))) = search_pos.
Proof. intros H. rewrite unlines_lines_of, length_take. lia. Qed.

Lemma declared_after (pre post : str) :
  needs_declaration (pre ++ declaration ++ post) = false.
Proof.
  unfold needs_declaration.
  replace (contains (lit "const expressionAttributeValues:") (pre ++ declaration ++ post))
    with true; [apply andb_false_r|].
  symmetry.
  change declaration
    with (([LF] ++ lit "    ") ++ lit "const expressionAttributeValues:"
          ++ (lit " Record<string, any> = {};" ++ [LF])).
  rewrite <- !app_assoc.
  rewrite (app_assoc pre), (app_assoc (pre ++ [LF])).
  apply contains_intro.
Qed.

End FallbackFacts.

(** ** The fallback of [fix_final_const_errors.py] *)

(** X9: When the fallback fires, the declaration is spliced in at the very
    position [find] returned, right before the first occurrence of the
    marker comment: splitting the text before the marker into lines and
    joining them again gives that text back, so that the insert position
    is the search position.  The indentation of the comment stays in front
    of the line break that opens the declaration. *)
Theorem X9_declaration_is_spliced_at_the_marker
    (file_path content : str) (search_pos : nat) (w : world) :
  ConstErrors.needs_declaration content = true ->
  str_find ConstErrors.marker content = Some search_pos ->
  exists pre post,
    content = pre ++ ConstErrors.marker ++ post
    /\ length pre = search_pos
    /\ (forall pre' post',
          content = pre' ++ ConstErrors.marker ++ post' -> length pre <= length pre')
    /\ ConstErrors.add_declaration file_path content w
       = (write_file file_path
            (pre ++ ConstErrors.declaration ++ ConstErrors.marker ++ post) >>
          print (Added file_path)) w.
Proof.
  intros Hneeds Hfind.
  destruct (str_find_some _ _ _ Hfind) as (pre & post & Hs & Hlen & Htake).
  exists pre, post. split; [exact Hs|]. split; [exact Hlen|]. split.
  - intros pre' post' Hs'. rewrite Hlen. now apply (str_find_first _ _ _ Hfind pre' post').
  - unfold ConstErrors.add_declaration. rewrite Hneeds, Hfind. cbn [when].
    rewrite FallbackFacts.insert_pos_is_search_pos
      by (rewrite Hs, length_app, <- Hlen; lia).
    rewrite Htake. do 3 f_equal.
    rewrite Hs, <- Hlen. now rewrite drop_app_length.
Qed.

(** X9: on a text with the marker after four blanks. *)
Lemma X9_declaration_is_spliced_at_the_marker_witness :
  exists pre post,
    Examples.undeclared_text = pre ++ ConstErrors.marker ++ post
    /\ length pre = 4
    /\ (forall pre' post',
          Examples.undeclared_text = pre' ++ ConstErrors.marker ++ post' ->
          length pre <= length pre')
    /\ ConstErrors.add_declaration (lit "src/lib/api/lab.ts") Examples.undeclared_text
         Examples.other_tree
       = (write_file (lit "src/lib/api/lab.ts")
            (pre ++ ConstErrors.declaration ++ ConstErrors.marker ++ post) >>
          print (Added (lit "src/lib/api/lab.ts"))) Examples.other_tree.
Proof.
  apply (X9_declaration_is_spliced_at_the_marker (lit "src/lib/api/lab.ts")
           Examples.undeclared_text 4 Examples.other_tree); reflexivity.
Defined.


(** X10: The fallback fires once: whatever the text and the position, the text
    with the declaration spliced in fails the guard, so that a second call
    on it writes nothing. *)
Theorem X10_declaration_is_added_once (file_path content : str) (n : nat) (w : world) :
  ConstErrors.needs_declaration
    (take n content ++ ConstErrors.declaration ++ drop n content) = false
  /\ ConstErrors.add_declaration file_path
       (take n content ++ ConstErrors.declaration ++ drop n content) w
     = Ret tt w.
Proof.
  pose proof (FallbackFacts.declared_after (take n content) (drop n content)) as H.
  split; [exact H|].
  unfold ConstErrors.add_declaration. now rewrite H.
Qed.

(** ** The scope of the switch-case pass *)

Lemma wrap_cases_outside (lines : list str) :
  (forall l, In l lines -> opens_switch l = false) ->
  wrap_cases false lines = lines.
Proof.
  induction lines as [|line rest IH]; intros Hno; [reflexivity|].
  rewrite wrap_cases_cons.
  assert (Hline : opens_switch line = false) by (apply Hno; now left).
  assert (Hins : inserted false line rest = []).
  { unfold inserted, wraps, is_case. cbn [andb]. rewrite andb_false_r.
    now destruct rest. }
  assert (Hflag : next_flag false line = false).
  { unfold next_flag, closes_switch. now rewrite Hline. }
  rewrite Hins, Hflag. cbn [app]. f_equal. apply IH.
  intros l Hl. apply Hno. now right.
Qed.

Lemma wrap_cases_closed (closer : str) (lines : list str) :
  opens_switch closer = false ->
  contains (lit "}") closer = true ->
  contains (lit "case") closer = false ->
  wrap_cases true (closer :: lines) = closer :: wrap_cases false lines.
Proof.
  intros Hopen Hbrace Hcase. rewrite wrap_cases_cons.
  assert (Hclose : closes_switch true closer = true).
  { unfold closes_switch. now rewrite Hbrace, Hcase. }
  assert (Hins : inserted true closer lines = []).
  { unfold inserted, wraps. rewrite Hclose, Hopen. cbn [negb andb]. now destruct lines. }
  assert (Hflag : next_flag true closer = false).
  { unfold next_flag. now rewrite Hopen, Hclose. }
  now rewrite Hins, Hflag.
Qed.

Lemma inserted_length (in_switch : bool) (line : str) (rest : list str) :
  length (inserted in_switch line rest) <= 2.
Proof.
  unfold inserted. destruct rest as [|following rest]; [simpl; lia|].
  destruct (wraps in_switch line (following :: rest)); simpl; lia.
Qed.

Lemma wrap_cases_sublist (lines : list str) :
  forall in_switch,
    sublist lines (wrap_cases in_switch lines)
    /\ length (wrap_cases in_switch lines) <= 3 * length lines.
Proof.
  induction lines as [|line rest IH]; intros in_switch.
  - split; [constructor | simpl; lia].
  - rewrite wrap_cases_cons.
    destruct (IH (next_flag in_switch line)) as [Hsub Hlen]. split.
    + apply sublist_skip. now apply sublist_inserts_l.
    + pose proof (inserted_length in_switch line rest).
      cbn [length]. rewrite length_app. lia.
Qed.

(** ** The switch-case pass of [final-typescript-fixes.py] *)

(** X11: Nothing is wrapped outside a switch.  A text none of whose lines holds
    both [switch] and [{] is returned as it was; and inside a switch the
    first line that holds [}] and not [case] ends the scope, whatever
    block that brace closes: the lines after it, up to the next line with
    [switch] and [{], are emitted as they are, [case] lines followed by
    declarations included. *)
Theorem X11_cases_are_wrapped_inside_a_switch_only (content : str) :
  (forall l, In l (lines_of content) ->
     contains (lit "switch") l && contains (lit "{") l = false) ->
  TypescriptFixes.fix_case_declarations content = content
  /\ wrap_cases false (lines_of content) = lines_of content
  /\ (forall closer,
        contains (lit "switch") closer && contains (lit "{") closer = false ->
        contains (lit "}") closer = true ->
        contains (lit "case") closer = false ->
        wrap_cases true (closer :: lines_of content) = closer :: lines_of content).
Proof.
  intros Hno.
  assert (H : wrap_cases false (lines_of content) = lines_of content)
    by now apply wrap_cases_outside.
  split; [|split].
  - unfold TypescriptFixes.fix_case_declarations. rewrite H. apply unlines_lines_of.
  - exact H.
  - intros closer Hopen Hbrace Hcase.
    rewrite wrap_cases_closed by assumption. now rewrite H.
Qed.

(** X11: on a [case] with a declaration, below the brace of an inner block. *)
Lemma X11_cases_are_wrapped_inside_a_switch_only_witness :
  wrap_cases true (lit "    }" :: lines_of Examples.after_block_text)
  = lit "    }" :: lines_of Examples.after_block_text.
Proof.
  refine (proj2 (proj2 (X11_cases_are_wrapped_inside_a_switch_only
                          Examples.after_block_text _))
            (lit "    }") eq_refl eq_refl eq_refl).
  intros l Hl. vm_compute in Hl.
  repeat (destruct Hl as [<-|Hl]; [vm_compute; reflexivity|]). destruct Hl.
Defined.


(** X12: The switch-case pass only inserts lines: the lines of the input are
    all in the output, unchanged and in their order, and the output has at
    most three times as many lines. *)
Theorem X12_case_pass_only_inserts_lines (content : str) :
  sublist (lines_of content)
    (lines_of (TypescriptFixes.fix_case_declarations content))
  /\ length (lines_of (TypescriptFixes.fix_case_declarations content))
     <= 3 * length (lines_of content).
Proof.
  rewrite fix_case_declarations_lines. apply wrap_cases_sublist.
Qed.

(** ** When the [} else {] repair fires *)

(** Either no line is repaired, and the lines are returned as they were,
    or some line triggers the repair. *)
Lemma repair_cases (lines : list str) :
  forall before,
    repair before lines = lines
    \/ exists pre line post,
         lines = pre ++ line :: post
         /\ malformed_after (rev pre ++ before) line <> None.
Proof.
  induction lines as [|line rest IH]; intros before; [now left|].
  cbn [repair]. destruct (malformed_after before line) as [if_line|] eqn:Hm.
  - right. exists [], line, rest. cbn [rev app]. rewrite Hm. split; [reflexivity | discriminate].
  - destruct (IH (line :: before)) as [-> | (pre & l & post & -> & Hl)]; [now left|].
    right. exists (line :: pre), l, post. cbn [rev app]. split; [reflexivity|].
    now rewrite <- app_assoc.
Qed.

Lemma repair_length (n : nat) :
  forall lines before,
    length lines <= n ->
    length lines <= length (repair before lines)
    /\ ((exists pre line post,
           lines = pre ++ line :: post
           /\ malformed_after (rev pre ++ before) line <> None) ->
        length lines < length (repair before lines)).
Proof.
  induction n as [|n IH]; intros lines before Hn.
  - destruct lines; [|simpl in Hn; lia]. split; [simpl; lia|].
    intros (pre & l & post & H & _). now destruct pre.
  - destruct lines as [|line rest].
    { split; [simpl; lia|]. intros (pre & l & post & H & _). now destruct pre. }
    cbn [repair]. destruct (malformed_after before line) as [if_line|] eqn:Hm.
    + assert (Hlen : length (line :: rest)
                     < length (fixed_section (strip if_line)
                               ++ match rest with
                                  | [] => []
                                  | skipped :: rest' =>
                                      repair (skipped :: line :: before) rest'
                                  end)).
      { rewrite length_app. cbn [fixed_section length].
        destruct rest as [|skipped rest']; [simpl; lia|].
        destruct (IH rest' (skipped :: line :: before)) as [Hge _];
          [simpl in Hn; lia|]. cbn [length]. lia. }
      split; [lia | intros _; exact Hlen].
    + destruct (IH rest (line :: before)) as [Hge Hgt]; [simpl in Hn; lia|].
      cbn [length]. split; [lia|].
      intros (pre & l & post & Hs & Hl). destruct pre as [|a pre].
      * cbn [app rev] in Hs, Hl. injection Hs as <- _. congruence.
      * cbn [app rev] in Hs, Hl. injection Hs as <- ->.
        rewrite <- app_assoc in Hl. apply Nat.succ_lt_mono in Hgt; [exact Hgt|].
        exists pre, l, post. now split.
Qed.

(** The index view of the loop and the view from the current line. *)
Lemma trigger_at_index (lines : list str) (i : nat) (line : str) :
  lines !! i = Some line ->
  exists post,
    lines = take i lines ++ line :: post
    /\ malformed_else lines i line = malformed_after (rev (take i lines) ++ []) line.
Proof.
  intros Hline. exists (drop (S i) lines). split.
  - rewrite <- (take_drop i lines) at 1. now rewrite (drop_S _ _ _ Hline).
  - rewrite app_nil_r. apply malformed_else_after.
    apply lookup_lt_Some in Hline. lia.
Qed.

Lemma trigger_at_split (pre : list str) (line : str) (post : list str) :
  (pre ++ line :: post) !! length pre = Some line
  /\ malformed_else (pre ++ line :: post) (length pre) line
     = malformed_after (rev pre ++ []) line.
Proof.
  split; [now rewrite list_lookup_middle|].
  rewrite malformed_else_after by (rewrite length_app; lia).
  now rewrite take_app_length, app_nil_r.
Qed.

Lemma repair_else_changes (lines : list str) :
  repair_else lines <> lines
  <-> exists i line, lines !! i = Some line /\ malformed_else lines i line <> None.
Proof.
  rewrite repair_else_spec. split.
  - intros Hne. destruct (repair_cases lines []) as [H | (pre & l & post & -> & Hl)];
      [contradiction|].
    exists (length pre), l. destruct (trigger_at_split pre l post) as [H1 H2].
    split; [exact H1 | now rewrite H2].
  - intros (i & line & Hline & Hm) Heq.
    destruct (trigger_at_index lines i line Hline) as (post & Hs & Hi).
    destruct (repair_length (length lines) lines [] (le_n _)) as [_ Hgt].
    rewrite Heq in Hgt. apply (Nat.lt_irrefl (length lines)). apply Hgt.
    exists (take i lines), line, post. split; [exact Hs | now rewrite <- Hi].
Qed.

(** Where the lines of the result come from. *)
Lemma repair_sources (n : nat) :
  forall lines before l,
    length lines <= n ->
    In l (repair before lines) ->
    In l lines
    \/ (exists l0, (In l0 before \/ In l0 lines)
                   /\ contains (lit "if (") l0 = true /\ l = strip l0)
    \/ In l [template_branch; else_line; tenant_branch; closing_line].
Proof.
  induction n as [|n IH]; intros lines before l Hn Hin.
  - destruct lines; [destruct Hin | simpl in Hn; lia].
  - destruct lines as [|line rest]; [destruct Hin|]. cbn [repair] in Hin.
    destruct (malformed_after before line) as [if_line|] eqn:Hm.
    + apply in_app_or in Hin as [Hin|Hin].
      * destruct Hin as [<-|Hin]; [|right; right; exact Hin].
        destruct (malformed_after_some _ _ _ Hm) as [_ Hscan].
        destruct (scan_back_some _ _ Hscan) as [Hb Hif].
        right; left. exists if_line. auto.
      * destruct rest as [|skipped rest']; [destruct Hin|].
        destruct (IH rest' (skipped :: line :: before) l) as [H | [H | H]];
          [simpl in Hn; lia | exact Hin | | |].
        -- left. right. now right.
        -- destruct H as (l0 & Hl0 & Hif & ->). right; left. exists l0.
           split; [|auto]. cbn [In] in *. tauto.
        -- right; right. exact H.
    + destruct Hin as [<-|Hin]; [left; now left|].
      destruct (IH rest (line :: before) l) as [H | [H | H]];
        [simpl in Hn; lia | exact Hin | | |].
      * left. now right.
      * destruct H as (l0 & Hl0 & Hif & ->). right; left. exists l0.
        split; [|auto]. cbn [In] in *. tauto.
      * right; right. exact H.
Qed.

(** ** The [} else {] repair of [final-build-fixes.py] *)

(** X13: [flow-nodes.ts] is rewritten exactly when the rule fires somewhere:
    the repaired text differs from the text read if and only if some line
    passes the nested tests of the loop body at its index (it holds
    [} else {], it is not the first line, the line above, stripped, is not
    empty, ends with none of [;], [}], [{] and mentions [const nodes] or
    [nodes =], and the backward scan finds a line with [if (]). *)
Theorem X13_flow_nodes_changes_iff_rule_fires (content : str) :
  differs (fix_flow_nodes content) content = true
  <-> exists i line,
        lines_of content !! i = Some line
        /\ malformed_else (lines_of content) i line <> None.
Proof.
  rewrite <- repair_else_changes. unfold differs.
  rewrite bool_decide_eq_true. split.
  - intros Hne Heq. apply Hne. unfold fix_flow_nodes. rewrite Heq.
    apply unlines_lines_of.
  - intros Hne Heq. apply Hne.
    rewrite <- fix_flow_nodes_lines. now rewrite Heq.
Qed.

(** X14: A repair loses two lines of the input: on [cond], [middle], a line
    [e] that holds [} else {], a line [skipped] and lines [rest] that hold no
    [} else {], with [cond] and [middle] as the rule expects them, the
    result is [cond], [middle], the five lines of the section and [rest]:
    neither [e], whatever else it held, nor [skipped], whatever it was, is
    in the place it had. *)
Theorem X14_repair_drops_the_else_line_and_the_next (cond middle e skipped : str)
    (rest : list str) :
  contains (lit "if (") cond = true ->
  contains (lit "if (") middle = false ->
  contains (lit "} else {") middle = false ->
  unterminated (strip middle) = true ->
  mentions_nodes (strip middle) = true ->
  contains (lit "} else {") e = true ->
  (forall l, In l rest -> contains (lit "} else {") l = false) ->
  repair_else (cond :: middle :: e :: skipped :: rest)
  = cond :: middle :: fixed_section (strip cond) ++ rest.
Proof.
  intros Hif Hmid Helse Hterm Hnodes He Hrest.
  rewrite repair_else_spec, repair_first. cbn [repair].
  rewrite (malformed_after_plain _ _ Helse).
  assert (Hm : malformed_after [middle; cond] e = Some cond).
  { unfold malformed_after. rewrite He, Hterm, Hnodes. cbn [scan_back].
    now rewrite Hmid, Hif. }
  rewrite Hm. do 2 f_equal. f_equal.
  generalize (skipped :: e :: [middle; cond]). clear -Hrest.
  induction rest as [|l rest IH]; intros before; [reflexivity|].
  cbn [repair]. rewrite malformed_after_plain by (apply Hrest; now left).
  f_equal. apply IH. intros l' Hl'. apply Hrest. now right.
Qed.

(** X14: on the malformed block with a comment on its [} else {] line. *)
Lemma X14_repair_drops_the_else_line_and_the_next_witness :
  repair_else (lit "  if (templateId) {" :: lit "    const nodes = await this.load()"
               :: lit "      } else { // none" :: lit "    return [];" :: [lit "  }"])
  = lit "  if (templateId) {" :: lit "    const nodes = await this.load()"
    :: fixed_section (strip (lit "  if (templateId) {")) ++ [lit "  }"].
Proof.
  refine (X14_repair_drops_the_else_line_and_the_next (lit "  if (templateId) {")
            (lit "    const nodes = await this.load()") (lit "      } else { // none")
            (lit "    return [];") [lit "  }"] eq_refl eq_refl eq_refl eq_refl eq_refl
            eq_refl _).
  intros l [<-|[]]. reflexivity.
Defined.


(** X15: The repair writes no text of its own but the four hard-coded lines:
    every line of the result is a line of the input, or a line of the input
    that holds [if (], stripped, or one of the two hard-coded branch bodies,
    the hard-coded [} else {] or the hard-coded closing brace.  Whatever the
    two branches of the malformed block held is not consulted. *)
Theorem X15_repair_writes_hard_coded_branches (content : str) (l : str) :
  In l (lines_of (fix_flow_nodes content)) ->
  In l (lines_of content)
  \/ (exists l0, In l0 (lines_of content)
                 /\ contains (lit "if (") l0 = true /\ l = strip l0)
  \/ In l [template_branch; else_line; tenant_branch; closing_line].
Proof.
  rewrite fix_flow_nodes_lines, repair_else_spec. intros Hin.
  destruct (repair_sources (length (lines_of content)) (lines_of content) [] l
              (le_n _) Hin) as [H | [(l0 & [[]|Hl0] & Hif & ->) | H]]; auto.
  right; left. now exists l0.
Qed.

(** X15: on the first hard-coded branch in the repaired malformed block. *)
Lemma X15_repair_writes_hard_coded_branches_witness :
  In template_branch (lines_of malformed_text)
  \/ (exists l0, In l0 (lines_of malformed_text)
                 /\ contains (lit "if (") l0 = true /\ template_branch = strip l0)
  \/ In template_branch [template_branch; else_line; tenant_branch; closing_line].
Proof.
  apply (X15_repair_writes_hard_coded_branches malformed_text template_branch).
  vm_compute. do 3 right. left. reflexivity.
Defined.

(** ** Substitutions with a literal pattern *)

(** [re.sub] with a literal pattern and a literal replacement is
    [str.replace]. *)
Lemma sub_from_literal (x y : str) :
  x <> [] ->
  forall fuel prev s adv,
    length s < fuel ->
    sub_from fuel (chars x) [TLit y] prev s adv = replace_from x y 0 s.
Proof.
  intros Hx. induction fuel as [|fuel IH]; intros prev s adv Hfuel; [lia|].
  cbn [sub_from]. unfold match_here. rewrite rmatch_chars.
  destruct (startswith x s) eqn:E.
  - apply startswith_inv in E as [t ->].
    rewrite drop_app_length.
    assert (Hlt : length t < length (x ++ t)).
    { rewrite length_app. destruct x; [congruence | simpl; lia]. }
    replace (length t =? length (x ++ t)) with false
      by (symmetry; apply Nat.eqb_neq; lia).
    rewrite andb_false_r.
    replace (length t <? length (x ++ t)) with true
      by (symmetry; apply Nat.ltb_lt; lia).
    rewrite IH by lia. rewrite replace_from_hit by assumption.
    cbn [expand flat_map]. now rewrite app_nil_r.
  - destruct s as [|a s]; [reflexivity|].
    rewrite replace_from_miss by assumption. rewrite IH by (simpl in Hfuel; lia).
    reflexivity.
Qed.

Lemma re_sub_literal (x y : str) (s : str) :
  x <> [] -> re_sub (chars x) [TLit y] s = replace_from x y 0 s.
Proof. intros Hx. apply sub_from_literal; [assumption | lia]. Qed.

Lemma contains_cons (p : str) (c : ascii) (s : str) :
  contains p (c :: s) = startswith p (c :: s) || contains p s.
Proof. reflexivity. Qed.

Lemma replace_from_absent (old new s : str) :
  contains old s = false -> replace_from old new 0 s = s.
Proof.
  induction s as [|c s IH]; intros H; [reflexivity|].
  rewrite contains_cons in H. apply orb_false_elim in H as [H1 H2].
  rewrite replace_from_miss by assumption. now rewrite IH.
Qed.

Lemma contains_suffix (p q s : str) :
  contains (p ++ q) s = true -> contains q s = true.
Proof.
  intros H. destruct (contains_inv _ _ H) as (pre & suf & ->).
  rewrite <- app_assoc, (app_assoc pre). apply contains_intro.
Qed.

(** A pattern that opens with a literal matches nowhere in a text that
    does not hold the literal. *)
Lemma sub_from_absent (x : str) (r : regex) (repl : list titem) :
  forall fuel prev s adv,
    contains x s = false ->
    sub_from fuel (Cat (chars x) r) repl prev s adv = s.
Proof.
  induction fuel as [|fuel IH]; intros prev s adv H; [reflexivity|].
  cbn [sub_from]. unfold match_here. cbn [rmatch]. rewrite rmatch_chars.
  destruct s as [|c s].
  - cbn [contains] in H. rewrite orb_false_r in H. now rewrite H.
  - rewrite contains_cons in H. apply orb_false_elim in H as [H1 H2].
    rewrite H1. now rewrite IH.
Qed.

Lemma re_sub_absent (x : string) (rs : list regex) (repl : list titem) (s : str) :
  contains (lit x) s = false -> re_sub (cat (text x :: rs)) repl s = s.
Proof. intros H. unfold re_sub, text. cbn [cat fold_right]. now apply sub_from_absent. Qed.

Module GenericFacts.
Import TypescriptFixes.

Lemma contains_generic_unknown (x : str) :
  contains generic_any (generic_unknown ++ x) = contains generic_any x.
Proof. reflexivity. Qed.

(** Once [<any>] has been replaced, no [<any>] is left. *)
Lemma generic_any_gone (s : str) :
  contains generic_any (replace_from generic_any generic_unknown 0 s) = false.
Proof.
  revert s. apply (replace_from_ind generic_any); [discriminate | reflexivity | |].
  - intros t IH. rewrite replace_from_hit by discriminate.
    now rewrite contains_generic_unknown.
  - intros c s Hmiss IH. rewrite replace_from_miss by assumption.
    rewrite contains_cons, IH, orb_false_r.
    apply (copied_start "<"%char (lit "any>") c s); [exact Hmiss|].
    apply (replace_from_reflects generic_any (lit "unknown>") "<"%char);
      [discriminate|].
    cbn. intros [H|[H|[H|[H|[]]]]]; discriminate.
Qed.

Lemma array_any_dead (s : str) :
  re_sub (text "Array<any>") (plain "Array<unknown>")
    (re_sub (text "<any>") (plain "<unknown>") s)
  = re_sub (text "<any>") (plain "<unknown>") s.
Proof.
  unfold text, plain. rewrite !re_sub_literal by discriminate.
  apply replace_from_absent.
  destruct (contains (lit "Array<any>") _) eqn:E; [|reflexivity].
  change (lit "Array<any>") with (lit "Array" ++ generic_any) in E.
  apply contains_suffix in E.
  change (lit "<any>") with generic_any in E.
  change (lit "<unknown>") with generic_unknown in E.
  now rewrite generic_any_gone in E.
Qed.

End GenericFacts.

(** ** Runs of a character class *)





Module ConstPassFacts.
Import BuildFixes.

Lemma quote_class (q : ascii) :
  quote q = true -> (fun c => existsb (Ascii.eqb c) (lit "'" ++ [DQUOTE])) q = true.
Proof. auto. Qed.



End ConstPassFacts.

(** ** The substitutions *)

(** X16: The pattern [Array<any>] of [common_patterns] never fires: it comes
    right after the pattern [<any>], which has rewritten every [<any>] of the
    text, and the [<unknown>] it writes starts no new one.  Every pattern
    list of [fixes] ends with [common_patterns]; with that entry left out
    [fix_file] computes the same text. *)
Theorem X16_array_any_pattern_never_fires (patterns : list rule) (content : str) :
  nth_error common_patterns 2 = Some (text "<any>", plain "<unknown>")
  /\ nth_error common_patterns 3 = Some (text "Array<any>", plain "Array<unknown>")
  /\ apply_patterns (patterns ++ common_patterns) content
     = apply_patterns (patterns ++ take 3 common_patterns ++ drop 4 common_patterns)
         content.
Proof.
  split; [reflexivity|]. split; [reflexivity|].
  rewrite !TsFacts.apply_patterns_app.
  unfold common_patterns. cbn [take drop firstn skipn app apply_patterns].
  now rewrite GenericFacts.array_any_dead.
Qed.

(** X17: The const pass of [final-build-fixes.py] leaves a text that does not
    hold [const] as it is, and does not write the file: each of its three
    patterns opens with the literal [const]. *)
Theorem X17_const_pass_needs_const (file_path content : str) (w : world) :
  contains (lit "const") content = false ->
  fix_const_content content = content
  /\ (files w !! file_path = Some content -> fix_const_file file_path w = Ret tt w).
Proof.
  intros Hno.
  assert (Hsame : fix_const_content content = content).
  { unfold fix_const_content, filter_expression, total_duration, completed_runs,
      zero_const.
    cbn [fst snd]. now rewrite !(re_sub_absent "const" _ _ content Hno). }
  split; [exact Hsame|]. intros H.
  unfold fix_const_file, bind.
  rewrite (path_exists_present _ _ _ H). cbn [when].
  rewrite (read_file_present _ _ _ H), Hsame, differs_same. reflexivity.
Qed.

(** X17: on a [lab.ts] without any [const]. *)
Lemma X17_const_pass_needs_const_witness :
  fix_const_content (lit "let total = 0;") = lit "let total = 0;"
  /\ (files (World {[ lit "src/lib/api/lab.ts" := lit "let total = 0;" ]} ∅ [] [])
        !! lit "src/lib/api/lab.ts" = Some (lit "let total = 0;") ->
      fix_const_file (lit "src/lib/api/lab.ts")
        (World {[ lit "src/lib/api/lab.ts" := lit "let total = 0;" ]} ∅ [] [])
      = Ret tt (World {[ lit "src/lib/api/lab.ts" := lit "let total = 0;" ]} ∅ [] [])).
Proof.
  apply (X17_const_pass_needs_const (lit "src/lib/api/lab.ts") (lit "let total = 0;")).
  reflexivity.
Defined.




(** ** A run rewrites each of its files once *)








Module TsPasses.
Import TypescriptFixes.




End TsPasses.

Module BuildPasses.
Import BuildFixes.




End BuildPasses.

(** ** What a run does to the tree *)









(** ** Missing files *)

Module MissingFacts.
Import ConstErrors.

Lemma apply_fix_missing (fx : fix_entry) (w : world) :
  files w !! file fx = None -> apply_fix fx w = Ret tt (say [NotFound (file fx)] w).
Proof.
  intros H. unfold apply_fix, bind. now rewrite (path_exists_missing _ _ H).
Qed.

Lemma for_each_missing (fs : list fix_entry) :
  forall ms w,
    (forall fx, In fx fs -> files w !! file fx = None) ->
    for_each fs apply_fix (say ms w)
    = Ret tt (say (ms ++ map (fun fx => NotFound (file fx)) fs) w).
Proof.
  induction fs as [|fx fs IH]; intros ms w Hmiss.
  - cbn [for_each map]. now rewrite app_nil_r.
  - cbn [for_each map]. unfold bind.
    rewrite apply_fix_missing by (cbn [say files]; apply Hmiss; now left).
    rewrite say_say, IH by (intros fx' Hfx'; apply Hmiss; now right).
    now rewrite <- app_assoc.
Qed.

End MissingFacts.

(** ** Missing files *)

(** X22: [fix_final_const_errors.py] reports every entry whose file is missing
    and goes on: on a tree that holds none of its files it prints "File not
    found" five times, once per entry and so twice for [lab.ts] and for
    [flow-nodes.ts], between its banner and its closing line, and leaves the
    tree as it was. *)
Theorem X22_const_run_reports_missing_files (w : world) :
  (forall p, In p const_targets -> files w !! p = None) ->
  ConstErrors.main w
  = Ret tt (say ([Start]
                 ++ map (fun fx => NotFound (ConstErrors.file fx)) ConstErrors.fixes
                 ++ [Completed]) w)
  /\ length (map (fun fx => NotFound (ConstErrors.file fx)) ConstErrors.fixes) = 5.
Proof.
  intros Hmiss. split; [|reflexivity].
  unfold ConstErrors.main, ConstErrors.fix_const_errors.
  unfold bind at 1, print at 1. unfold bind at 1.
  rewrite MissingFacts.for_each_missing.
  - unfold print. now rewrite say_say, <- app_assoc.
  - intros fx Hfx. apply Hmiss. unfold const_targets. now apply in_map.
Qed.

(** X22: on a tree that holds a README and nothing else. *)
Lemma X22_const_run_reports_missing_files_witness :
  ConstErrors.main Examples.other_tree
  = Ret tt (say ([Start]
                 ++ map (fun fx => NotFound (ConstErrors.file fx)) ConstErrors.fixes
                 ++ [Completed]) Examples.other_tree).
Proof.
  refine (proj1 (X22_const_run_reports_missing_files Examples.other_tree _)).
  intros p Hp. vm_compute in Hp.
  repeat (destruct Hp as [<-|Hp]; [vm_compute; reflexivity|]). destruct Hp.
Defined.

(** ** The entries of [fix_const_errors], file by file *)

Module EntryFacts.
Import ConstErrors.




End EntryFacts.

(** ** The condition of the repaired block *)

(** X23: The backward scan of the repair stops at the nearest line, at or above
    the index it starts from, that holds [if (]: that line is the one whose
    stripped text opens the section; the scan finds none exactly when no line
    up to that index holds [if (]. *)
Theorem X23_scan_finds_the_nearest_if (lines : list str) (j : nat) :
  j < length lines ->
  match find_if lines j with
  | Some l =>
      exists k, k <= j /\ lines !! k = Some l /\ contains (lit "if (") l = true
                /\ forall k' l', k < k' <= j -> lines !! k' = Some l' ->
                                 contains (lit "if (") l' = false
  | None =>
      forall k l', k <= j -> lines !! k = Some l' -> contains (lit "if (") l' = false
  end.
Proof.
  revert j.
  induction j as [|j IH]; intros Hj.
  - destruct (lookup_lt_is_Some_2 lines 0 Hj) as [l Hl]. cbn [find_if]. rewrite Hl.
    destruct (contains (lit "if (") l) eqn:E.
    + exists 0. repeat split; try assumption; lia.
    + intros k l' Hk Hl'. replace k with 0 in Hl' by lia. congruence.
  - destruct (lookup_lt_is_Some_2 lines (S j) Hj) as [l Hl]. cbn [find_if]. rewrite Hl.
    destruct (contains (lit "if (") l) eqn:E.
    + exists (S j). repeat split; try assumption; lia.
    + specialize (IH ltac:(lia)). destruct (find_if lines j) as [l0|].
      * destruct IH as (k & Hk & Hl0 & Hif & Hnear).
        exists k. repeat split; try assumption; try lia.
        intros k' l' Hk' Hl'. destruct (decide (k' = S j)) as [->|Hne].
        -- congruence.
        -- apply (Hnear k' l'); [lia | assumption].
      * intros k l' Hk Hl'. destruct (decide (k = S j)) as [->|Hne].
        -- congruence.
        -- apply (IH k l'); [lia | assumption].
Qed.

(** X23: on the malformed block, from the line above its [} else {]. *)
Lemma X23_scan_finds_the_nearest_if_witness :
  match find_if malformed_lines 1 with
  | Some l =>
      exists k, k <= 1 /\ malformed_lines !! k = Some l
                /\ contains (lit "if (") l = true
                /\ forall k' l', k < k' <= 1 -> malformed_lines !! k' = Some l' ->
                                 contains (lit "if (") l' = false
  | None =>
      forall k l', k <= 1 -> malformed_lines !! k = Some l' ->
                   contains (lit "if (") l' = false
  end.
Proof. apply (X23_scan_finds_the_nearest_if malformed_lines 1). vm_compute. lia. Defined.

(** ** What [fix_final_const_errors.py] does to the tree *)



(** ** Writes that change the file *)

Lemma wrote_changes_none (ps : list str) (w : world) : wrote_changes ps w w [].
Proof.
  unfold wrote_changes, reports. cbn [map]. rewrite !app_nil_r.
  repeat split; auto.
Qed.

Lemma wrote_changes_one (p old new : str) (w : world) :
  files w !! p = Some old -> new <> old ->
  wrote_changes [p] w (say [Fixed p] (store p new w)) [(p, new)].
Proof.
  intros H Hnew. unfold wrote_changes, reports. cbn [say store writes console files map fst].
  split; [reflexivity|]. split; [reflexivity|]. split.
  - constructor; [|constructor]. cbn [fst snd]. split; [now left|]. now exists old.
  - intros q Hq. apply lookup_insert_ne. intros ->. apply Hq. now left.
Qed.

Lemma wrote_changes_app (ps qs : list str) (w w1 w2 : world) (ws1 ws2 : list (str * str)) :
  (forall p, In p ps -> ~ In p qs) ->
  wrote_changes ps w w1 ws1 -> wrote_changes qs w1 w2 ws2 ->
  wrote_changes (ps ++ qs) w w2 (ws1 ++ ws2).
Proof.
  intros Hapart (Hw1 & Hc1 & Hf1 & Hk1) (Hw2 & Hc2 & Hf2 & Hk2).
  unfold wrote_changes, reports in *.
  rewrite Hw2, Hw1, Hc2, Hc1, map_app, <- !app_assoc.
  split; [reflexivity|]. split; [reflexivity|]. split.
  - apply Forall_app. split.
    + eapply List.Forall_impl; [|exact Hf1]. cbn beta.
      intros pw [Hin Hold]. split; [apply in_or_app; now left | exact Hold].
    + eapply List.Forall_impl; [|exact Hf2]. cbn beta.
      intros pw [Hin (old & Hold & Hne)]. split; [apply in_or_app; now right|].
      exists old. split; [|exact Hne]. rewrite <- Hk1; [exact Hold|].
      intros Hp. now apply (Hapart _ Hp).
  - intros q Hq. rewrite Hk2, Hk1; [reflexivity | |];
      intros H; apply Hq; apply in_or_app; auto.
Qed.

Module BuildWrites.
Import BuildFixes.

Lemma fix_const_file_writes (file_path : str) (w : world) :
  faults w = ∅ ->
  exists ws w',
    fix_const_file file_path w = Ret tt w'
    /\ faults w' = ∅
    /\ wrote_changes [file_path] w w' ws.
Proof.
  intros Hok. unfold fix_const_file. destruct (files w !! file_path) as [content|] eqn:H.
  - unfold bind at 1. rewrite (path_exists_present _ _ _ H). cbn [when].
    unfold bind at 1. rewrite (read_file_present _ _ _ H).
    destruct (decide (fix_const_content content = content)) as [Hsame|Hnew].
    + rewrite Hsame, differs_same. exists [], w.
      split; [reflexivity|]. split; [assumption | apply wrote_changes_none].
    + rewrite differs_true by assumption. cbn [when]. unfold bind.
      rewrite TsFacts.write_file_sound by (rewrite Hok; apply lookup_empty).
      eexists _, _. split; [reflexivity|]. split; [exact Hok|].
      now apply (wrote_changes_one _ content).
  - unfold bind. rewrite (path_exists_missing _ _ H). exists [], w.
    split; [reflexivity|]. split; [assumption | apply wrote_changes_none].
Qed.

Lemma for_each_writes (ps : list str) :
  List.NoDup ps ->
  forall w,
    faults w = ∅ ->
    exists ws w',
      for_each ps fix_const_file w = Ret tt w'
      /\ faults w' = ∅
      /\ wrote_changes ps w w' ws.
Proof.
  induction ps as [|p ps IH]; intros Hnd w Hok.
  - exists [], w. split; [reflexivity|]. split; [assumption | apply wrote_changes_none].
  - apply List.NoDup_cons_iff in Hnd as [Hfresh Hnd]. cbn [for_each]. unfold bind.
    destruct (fix_const_file_writes p w Hok) as (ws1 & w1 & -> & Hok1 & H1).
    destruct (IH Hnd w1 Hok1) as (ws2 & w2 & -> & Hok2 & H2).
    exists (ws1 ++ ws2), w2. split; [reflexivity|]. split; [assumption|].
    apply (wrote_changes_app [p] ps w w1 w2); try assumption.
    intros q [<-|[]]. exact Hfresh.
Qed.

Lemma flow_nodes_writes (w : world) :
  faults w = ∅ ->
  exists ws w',
    (let* present := path_exists flow_nodes_path in
     when present
       (let* content := read_file flow_nodes_path in
        let fixed_content := fix_flow_nodes content in
        when (differs fixed_content content)
          (write_file flow_nodes_path fixed_content >> print (Fixed flow_nodes_path))))
      w = Ret tt w'
    /\ faults w' = ∅
    /\ wrote_changes [flow_nodes_path] w w' ws.
Proof.
  intros Hok. destruct (files w !! flow_nodes_path) as [content|] eqn:H.
  - unfold bind at 1. rewrite (path_exists_present _ _ _ H). cbn [when].
    unfold bind at 1. rewrite (read_file_present _ _ _ H). cbn zeta.
    destruct (decide (fix_flow_nodes content = content)) as [Hsame|Hnew].
    + rewrite Hsame, differs_same. exists [], w.
      split; [reflexivity|]. split; [assumption | apply wrote_changes_none].
    + rewrite differs_true by assumption. cbn [when]. unfold bind.
      rewrite TsFacts.write_file_sound by (rewrite Hok; apply lookup_empty).
      eexists _, _. split; [reflexivity|]. split; [exact Hok|].
      now apply (wrote_changes_one _ content).
  - unfold bind. rewrite (path_exists_missing _ _ H). exists [], w.
    split; [reflexivity|]. split; [assumption | apply wrote_changes_none].
Qed.

End BuildWrites.

(** ** Writes that change the file *)

(** X25: [final-build-fixes.py] writes no file back as it was.  With no failing
    write it returns; every write of the run is to one of its three files,
    puts there a text that differs from the text the file held when the run
    started, and is reported by a line "Fixed ... p"; nothing else is
    printed between the banner and the two closing lines. *)
Theorem X25_build_run_writes_only_changes (w : world) :
  faults w = ∅ ->
  exists ws w',
    BuildFixes.main w = Ret tt w'
    /\ writes w' = writes w ++ ws
    /\ console w' = console w ++ [Start] ++ reports ws ++ [Completed; NextStep]
    /\ Forall (fun pw => In (fst pw) build_targets
                         /\ exists old, files w !! fst pw = Some old /\ snd pw <> old) ws.
Proof.
  intros Hok. unfold BuildFixes.main. unfold bind at 1, print at 1.
  assert (Hnd : List.NoDup files_to_fix_const).
  { apply NoDup_ListNoDup. refine (bool_decide_unpack _ _). vm_compute. exact I. }
  destruct (BuildWrites.for_each_writes files_to_fix_const Hnd (say [Start] w) Hok)
    as (ws1 & w1 & E1 & Hok1 & H1).
  unfold bind at 1. rewrite E1.
  destruct (BuildWrites.flow_nodes_writes w1 Hok1) as (ws2 & w2 & E2 & Hok2 & H2).
  unfold bind at 1. cbn zeta in E2 |- *. rewrite E2.
  assert (H : wrote_changes build_targets (say [Start] w) w2 (ws1 ++ ws2)).
  { apply (wrote_changes_app files_to_fix_const [flow_nodes_path] _ w1 w2);
      try assumption.
    intros p Hp [<-|[]]. revert Hp. vm_compute. intros Hp.
    repeat (destruct Hp as [Hp|Hp]; [discriminate Hp|]). exact Hp. }
  destruct H as (Hw & Hc & Hf & _). cbn [say writes console files] in Hw, Hc, Hf.
  exists (ws1 ++ ws2). eexists. split; [reflexivity|].
  cbn [say writes console]. rewrite Hw, Hc, <- !app_assoc.
  repeat split. exact Hf.
Qed.

(** X25: on a [lab.ts] with a counter to free and a [flow-nodes.ts] to repair. *)
Lemma X25_build_run_writes_only_changes_witness :
  exists ws w',
    BuildFixes.main Examples.build_world = Ret tt w'
    /\ writes w' = writes Examples.build_world ++ ws
    /\ console w'
       = console Examples.build_world ++ [Start] ++ reports ws ++ [Completed; NextStep]
    /\ Forall (fun pw => In (fst pw) build_targets
                         /\ exists old, files Examples.build_world !! fst pw = Some old
                                        /\ snd pw <> old) ws.
Proof. apply (X25_build_run_writes_only_changes Examples.build_world). reflexivity. Defined.
